(** * api-gateway-sample: the request pipeline and its collaborators

    A shallow embedding of the Go sources of the gateway:
    the domain entities ([internal/domain/entity]), the in-memory service
    registry ([internal/domain/repository/mock]) and the SQL-backed one
    ([internal/infrastructure/repository]), the token-bucket rate limiter
    ([internal/infrastructure/ratelimit]), the Redis-backed cache
    ([internal/infrastructure/cache]), the gateway transformations and the
    HTTP client ([internal/infrastructure/client]), the JWT authenticator
    ([internal/infrastructure/auth]) and the proxy use case
    ([internal/application/usecase]).

    The libraries the gateway calls (Redis through go-redis, gorm,
    golang-jwt, [encoding/json], the network) are modelled by what they
    are documented to do for the calls made, or taken as parameters.

    Conventions.
    - Go [int]/[int64] values are [Z]; the one subtraction the modelled
      code performs ([RateLimit-1]) has its 64-bit wrap-around written out.
    - Go maps are [gmap]s.  The [Headers] map of a request, which
      [TransformRequest] shares between two structs and then writes
      through, lives in an explicit heap and the structs hold its location.
      The other maps are kept as values: [TransformResponse] shares the
      [Headers] of a response in the same way, but nothing below looks at
      its input again after the call.
    - A Go [error] is a value of [GoError]; a function returning
      [(T, error)] returns [Result T].
    - Time is an integer count of nanoseconds, as [time.Duration] is. *)

From stdpp Require Import gmap strings list fin_maps.
From stdpp Require Import pretty.
From Stdlib Require Import ZArith Lia Ascii PrimFloat.

#[local] Set Warnings "-register-all".

Open Scope string_scope.
Open Scope Z_scope.

(** ** Errors ([pkg/errors], [internal/infrastructure/client/errors.go]) *)

Inductive GoError : Type :=
  | ErrNotFound
  | ErrAlreadyExists
  | ErrServiceNotFound
  | ErrInvalidRequest
  | ErrInvalidMethod
  | ErrInvalidPath
  | RedisNil                             (* redis.Nil: the key is absent *)
  | ErrExternal (what : string)          (* an error value of a library *)
  | Errorf (msg : string)                (* fmt.Errorf without %w *)
  | Wrapf (msg : string) (cause : GoError). (* fmt.Errorf("msg: %w", cause) *)

Inductive Result (A : Type) : Type :=
  | Ok (a : A)
  | Err (e : GoError).
Arguments Ok {A} a.
Arguments Err {A} e.

(** [errors.Is err target] for the sentinel targets of [pkg/errors]. *)
Fixpoint errors_Is (err target : GoError) : bool :=
  match err with
  | Wrapf _ cause => errors_Is cause target
  | ErrNotFound => match target with ErrNotFound => true | _ => false end
  | ErrAlreadyExists => match target with ErrAlreadyExists => true | _ => false end
  | ErrServiceNotFound => match target with ErrServiceNotFound => true | _ => false end
  | _ => false
  end.

Definition IsNotFound (err : GoError) : bool := errors_Is err ErrNotFound.

(** ** Entities ([internal/domain/entity]) *)

Abbreviation HeaderMap := (gmap string (list string)).

(** Locations of header maps on the heap; [None] is Go's nil map. *)
Abbreviation loc := positive.
Abbreviation Heap := (gmap loc HeaderMap).

Module Endpoint.
(** The nested [CircuitBreaker], [Cache] and [Transform] blocks are
    configuration that none of the modelled functions reads. *)
Record t : Type := mk {
  Path : string;
  Methods : list string;
  RateLimit : Z;
  AuthRequired : bool;
  Timeout : Z;
  RetryCount : Z;
  RetryDelay : Z;
  CacheTTL : Z
}.
End Endpoint.

Module Service.
Record t : Type := mk {
  ID : string;
  Name : string;
  Version : string;
  Description : string;
  BaseURL : string;
  Timeout : Z;
  RetryCount : Z;
  IsActive : bool;
  Metadata : gmap string string;
  Endpoints : list Endpoint.t
}.

Definition with_ID (id : string) (s : t) : t :=
  mk id (Name s) (Version s) (Description s) (BaseURL s) (Timeout s)
     (RetryCount s) (IsActive s) (Metadata s) (Endpoints s).

(** [for _, m := range endpoint.Methods { if m == method { return } }] *)
Definition has_method (method : string) (e : Endpoint.t) : bool :=
  existsb (fun m => bool_decide (m = method)) (Endpoint.Methods e).

(** [Service.FindEndpoint]: the first endpoint, in declaration order,
    with the given path and the given method among its methods. *)
Definition FindEndpoint (s : t) (path method : string) : option Endpoint.t :=
  List.find (fun e => bool_decide (Endpoint.Path e = path) && has_method method e)
            (Endpoints s).
End Service.

Module Request.
Record t : Type := mk {
  ID : string;
  Method : string;
  Path : string;
  Headers : option loc;
  QueryParams : gmap string (list string);
  Body : string;
  ClientIP : string;
  Timestamp : Z;
  Authenticated : bool;
  UserID : string;
  Timeout : Z
}.

Definition with_UserID (u : string) (r : t) : t :=
  mk (ID r) (Method r) (Path r) (Headers r) (QueryParams r) (Body r)
     (ClientIP r) (Timestamp r) (Authenticated r) u (Timeout r).
End Request.

Module Response.
Record t : Type := mk {
  RequestID : string;
  StatusCode : Z;
  Headers : option HeaderMap;
  Body : string;
  ContentType : string;
  ContentLength : Z;
  Timestamp : Z;
  LatencyMs : Z;
  CachedResult : bool
}.

Definition with_CachedResult (c : bool) (r : t) : t :=
  mk (RequestID r) (StatusCode r) (Headers r) (Body r) (ContentType r)
     (ContentLength r) (Timestamp r) (LatencyMs r) c.
End Response.

(** ** The in-memory registry
    ([internal/domain/repository/mock/service_repository_mock.go])

    [services map[string]*entity.Service], under one lock per call.  The
    order in which Go ranges over a map is unspecified; the model ranges
    in the order of [map_to_list], and the statements below are about
    membership, never about positions. *)

Module ServiceRepositoryMock.

Abbreviation t := (gmap string Service.t).

(** [for _, s := range r.services { if P s { ... } }] as a test. *)
Definition any_service (P : Service.t -> bool) (r : t) : bool :=
  existsb (fun kv => P kv.2) (map_to_list r).

Definition Create (r : t) (service : Service.t) : Result t :=
  if any_service (fun s => bool_decide (Service.Name s = Service.Name service)) r
  then Err ErrAlreadyExists
  else
    let service :=
      if bool_decide (Service.ID service = "")
      then Service.with_ID "test-id" service else service in
    Ok (<[Service.ID service := service]> r).

Definition Get (r : t) (id : string) : Result Service.t :=
  match r !! id with
  | Some s => Ok s
  | None => Err ErrNotFound
  end.

Definition Update (r : t) (service : Service.t) : Result t :=
  match r !! Service.ID service with
  | None => Err ErrNotFound
  | Some _ =>
    if any_service
         (fun s => bool_decide (Service.Name s = Service.Name service)
                   && negb (bool_decide (Service.ID s = Service.ID service))) r
    then Err ErrAlreadyExists
    else Ok (<[Service.ID service := service]> r)
  end.

Definition Delete (r : t) (id : string) : Result t :=
  match r !! id with
  | None => Err ErrNotFound
  | Some _ => Ok (delete id r)
  end.

(** The inner loop over [endpoint.Methods], left by [break] at the
    first supported method. *)
Definition supports (method : string) (e : Endpoint.t) : bool :=
  existsb (fun m => bool_decide (m = method) || bool_decide (m = "*"))
          (Endpoint.Methods e).

(** One [append] per endpoint of the service that matches. *)
Definition matching_endpoints (path method : string) (s : Service.t)
  : list Endpoint.t :=
  List.filter (fun e => bool_decide (Endpoint.Path e = path) && supports method e)
              (Service.Endpoints s).

Definition GetByEndpoint (r : t) (path method : string)
  : Result (list Service.t) :=
  let matchingServices :=
    flat_map (fun kv => List.map (fun _ => kv.2) (matching_endpoints path method kv.2))
             (map_to_list r) in
  match matchingServices with
  | [] => Err ErrNotFound
  | _ => Ok matchingServices
  end.

End ServiceRepositoryMock.

(** ** The SQL-backed registry ([ServiceRepositoryImpl], package
    [repository] of [internal/infrastructure])

    The database and its access library (gorm) are outside the
    repository: the calls the registry makes are the fields of [Gorm],
    over any type of database states.  A call reports the library's error,
    if any, as its message. *)

Module ServiceModel.
(** [CreatedAt] and [UpdatedAt] are filled by the library. *)
Record t : Type := mk {
  ID : string;
  Name : string;
  Version : string;
  Description : string;
  BaseURL : string;
  Timeout : Z;
  RetryCount : Z;
  IsActive : bool
}.
End ServiceModel.

Module EndpointModel.
Record t : Type := mk {
  ServiceID : string;
  Path : string;
  Methods : string;
  RateLimit : Z;
  AuthRequired : bool;
  Timeout : Z;
  CacheTTL : Z
}.
End EndpointModel.

Inductive Rows (A : Type) : Type :=
  | Found (rows : list A)
  | QueryError (msg : string).
Arguments Found {A} rows.
Arguments QueryError {A} msg.

Record Gorm (DB : Type) : Type := mkGorm {
  (** [db.Create(&model)] on a service *)
  create_service : DB -> ServiceModel.t -> option string * DB;
  (** [db.Save(&model)] on a service *)
  save_service : DB -> ServiceModel.t -> option string * DB;
  (** [db.Create(&endpointModel)] *)
  create_endpoint : DB -> EndpointModel.t -> option string * DB;
  (** [db.Where("service_id = ?", id).Delete(&EndpointModel{})] *)
  delete_endpoints : DB -> string -> option string * DB;
  (** [db.Where("service_id = ?", id).Find(&models)] *)
  find_endpoints : DB -> string -> Rows EndpointModel.t;
  (** The join of services and endpoints, [WHERE endpoints.path = ? AND
      endpoints.methods LIKE ?] *)
  find_by_endpoint : DB -> string -> string -> Rows ServiceModel.t
}.
Arguments create_service {DB} g.
Arguments save_service {DB} g.
Arguments create_endpoint {DB} g.
Arguments delete_endpoints {DB} g.
Arguments find_endpoints {DB} g.
Arguments find_by_endpoint {DB} g.

Module ServiceRepositoryImpl.

Section WithDatabase.

Context {DB : Type} (g : Gorm DB).

Definition mapModelToEntity (model : ServiceModel.t) : Service.t :=
  Service.mk (ServiceModel.ID model) (ServiceModel.Name model)
    (ServiceModel.Version model) (ServiceModel.Description model)
    (ServiceModel.BaseURL model) (ServiceModel.Timeout model)
    (ServiceModel.RetryCount model) (ServiceModel.IsActive model) ∅ [].

Definition mapEntityToModel (service : Service.t) : ServiceModel.t :=
  ServiceModel.mk (Service.ID service) (Service.Name service)
    (Service.Version service) (Service.Description service)
    (Service.BaseURL service) (Service.Timeout service)
    (Service.RetryCount service) (Service.IsActive service).

(** [fmt.Sprintf("%v", methods)]: the elements between brackets,
    separated by spaces. *)
Definition sprint_v (methods : list string) : string :=
  ("[" ++ String.concat " " methods ++ "]")%string.

(** The literal leaves [CacheTTL] at zero. *)
Definition mapEndpointToModel (endpoint : Endpoint.t) (serviceID : string)
  : EndpointModel.t :=
  EndpointModel.mk serviceID (Endpoint.Path endpoint)
    (sprint_v (Endpoint.Methods endpoint)) (Endpoint.RateLimit endpoint)
    (Endpoint.AuthRequired endpoint) (Endpoint.Timeout endpoint) 0.

(** The methods string is not parsed back: the slice is empty. *)
Definition loadEndpoints (db : DB) (service : Service.t) : Result Service.t :=
  match find_endpoints g db (Service.ID service) with
  | QueryError msg => Err (Wrapf "failed to load endpoints" (ErrExternal msg))
  | Found models =>
      Ok (Service.mk (Service.ID service) (Service.Name service)
            (Service.Version service) (Service.Description service)
            (Service.BaseURL service) (Service.Timeout service)
            (Service.RetryCount service) (Service.IsActive service)
            (Service.Metadata service)
            (Service.Endpoints service
             ++ List.map
                  (fun model =>
                     Endpoint.mk (EndpointModel.Path model) []
                       (EndpointModel.RateLimit model)
                       (EndpointModel.AuthRequired model)
                       (EndpointModel.Timeout model) 0 0 0)
                  models)%list)
  end.

(** [for _, endpoint := range service.Endpoints { db.Create(...) }],
    left at the first error. *)
Fixpoint create_endpoints (db : DB) (endpoints : list Endpoint.t)
    (serviceID : string) : option GoError * DB :=
  match endpoints with
  | [] => (None, db)
  | endpoint :: rest =>
      match create_endpoint g db (mapEndpointToModel endpoint serviceID) with
      | (Some msg, db) =>
          (Some (Wrapf "failed to create endpoint" (ErrExternal msg)), db)
      | (None, db) => create_endpoints db rest serviceID
      end
  end.

Definition Create (db : DB) (service : Service.t) : option GoError * DB :=
  match create_service g db (mapEntityToModel service) with
  | (Some msg, db) => (Some (Wrapf "failed to create service" (ErrExternal msg)), db)
  | (None, db) => create_endpoints db (Service.Endpoints service) (Service.ID service)
  end.

Definition Update (db : DB) (service : Service.t) : option GoError * DB :=
  match save_service g db (mapEntityToModel service) with
  | (Some msg, db) => (Some (Wrapf "failed to update service" (ErrExternal msg)), db)
  | (None, db) =>
      match delete_endpoints g db (Service.ID service) with
      | (Some msg, db) =>
          (Some (Wrapf "failed to delete endpoints" (ErrExternal msg)), db)
      | (None, db) =>
          create_endpoints db (Service.Endpoints service) (Service.ID service)
      end
  end.

(** [for i, model := range models { ...; services[i] = service }], left
    at the first error. *)
Fixpoint load_services (db : DB) (models : list ServiceModel.t)
  : Result (list Service.t) :=
  match models with
  | [] => Ok []
  | model :: rest =>
      match loadEndpoints db (mapModelToEntity model) with
      | Err err => Err err
      | Ok service =>
          match load_services db rest with
          | Err err => Err err
          | Ok services => Ok (service :: services)
          end
      end
  end.

Definition GetByEndpoint (db : DB) (path method : string)
  : Result (list Service.t) :=
  match find_by_endpoint g db path ("%" ++ method ++ "%")%string with
  | QueryError msg => Err (Wrapf "failed to get services" (ErrExternal msg))
  | Found models => load_services db models
  end.

End WithDatabase.

End ServiceRepositoryImpl.

(** ** JSON texts and dynamically typed Go values

    What [encoding/json] writes and reads, as abstract syntax.  Numbers are
    integers: the modelled code serialises no fractional number. *)

Inductive JSON : Type :=
  | JNull
  | JBool (b : bool)
  | JNum (n : Z)
  | JStr (s : string)
  | JArr (items : list JSON)
  | JObj (fields : list (string * JSON)).

(** The plain dynamic values of the modelled code: what [json.Unmarshal]
    stores into an [*interface{}] (nil, bool, float64, string,
    []interface{}, map[string]interface{}) and the [int64] of a Unix
    time. *)
Inductive GoValue : Type :=
  | VNil
  | VBool (b : bool)
  | VInt (n : Z)
  | VFloat64 (n : Z)
  | VString (s : string)
  | VSlice (items : list GoValue)
  | VMap (entries : list (string * GoValue)).

(** An [interface{}] of the cache: a plain value, or the
    [*entity.Response] the pipeline hands over. *)
Inductive GoAny : Type :=
  | AnyValue (v : GoValue)
  | AnyResponsePtr (r : Response.t).

(** [json.Marshal] of a plain value; it cannot fail on these. *)
Fixpoint marshal_value (v : GoValue) : JSON :=
  match v with
  | VNil => JNull
  | VBool b => JBool b
  | VInt n => JNum n
  | VFloat64 n => JNum n
  | VString s => JStr s
  | VSlice items => JArr (List.map marshal_value items)
  | VMap entries =>
      JObj (List.map (fun kv => let '(k, x) := kv in (k, marshal_value x)) entries)
  end.

(** [json.Unmarshal(data, &value)] with [value] an [interface{}]. *)
Fixpoint unmarshal_value (j : JSON) : GoValue :=
  match j with
  | JNull => VNil
  | JBool b => VBool b
  | JNum n => VFloat64 n
  | JStr s => VString s
  | JArr items => VSlice (List.map unmarshal_value items)
  | JObj fields =>
      VMap (List.map (fun kv => let '(k, x) := kv in (k, unmarshal_value x)) fields)
  end.

(** ** Durations and instants ([time]) *)

Module time.
Definition Millisecond : Z := 1000000.
Definition Second : Z := 1000 * Millisecond.
Definition Minute : Z := 60 * Second.
(** [t.Unix()]: whole seconds since the epoch. *)
Definition Unix (t : Z) : Z := t / Second.
End time.

(** ** The key-value store (Redis, through go-redis v9)

    A library outside the repository, modelled by the commands the
    gateway issues.  A stored string is kept as the JSON text it spells:
    the gateway writes decimal integers (the rate-limit counters) and
    [json.Marshal] output only.  A key whose expiry instant has passed is
    absent for every command. *)

Module Redis.

Record Entry : Type := mkEntry {
  value : JSON;
  expireAt : option Z
}.

Abbreviation Store := (gmap string Entry).

Definition KeepTTL : Z := -1.

Definition min_int64 : Z := - 2 ^ 63.
Definition max_int64 : Z := 2 ^ 63 - 1.
Definition in_int64 (n : Z) : bool := (min_int64 <=? n) && (n <=? max_int64).
(** Go's signed 64-bit wrap-around. *)
Definition wrap64 (n : Z) : Z := (n + 2 ^ 63) mod 2 ^ 64 - 2 ^ 63.

Definition live (now : Z) (e : Entry) : bool :=
  match expireAt e with
  | None => true
  | Some t => now <? t
  end.

Definition lookup (now : Z) (db : Store) (key : string) : option Entry :=
  match db !! key with
  | Some e => if live now e then Some e else None
  | None => None
  end.

(** GET *)
Definition Get (now : Z) (db : Store) (key : string) : Result JSON :=
  match lookup now db key with
  | Some e => Ok (value e)
  | None => Err RedisNil
  end.

(** [StringCmd.Int]: [strconv.Atoi] of the reply. *)
Definition Int (reply : Result JSON) : Result Z :=
  match reply with
  | Err e => Err e
  | Ok (JNum n) =>
      if in_int64 n then Ok n
      else Err (ErrExternal "strconv.Atoi: value out of range")
  | Ok _ => Err (ErrExternal "strconv.Atoi: invalid syntax")
  end.

(** The expiry go-redis sends with SET: PX in whole milliseconds (at
    least one) unless the duration is a whole number of seconds. *)
Definition set_ttl (d : Z) : Z :=
  if d <? time.Millisecond then time.Millisecond
  else (d / time.Millisecond) * time.Millisecond.

(** SET key value [EX|PX ttl | KEEPTTL] *)
Definition Set_ (now : Z) (db : Store) (key : string) (v : JSON) (ttl : Z) : Store :=
  let expiry :=
    if 0 <? ttl then Some (now + set_ttl ttl)
    else if ttl =? KeepTTL
         then match lookup now db key with
              | Some e => expireAt e
              | None => None
              end
         else None in
  <[key := mkEntry v expiry]> db.

(** DECR: an absent key counts as 0 before the decrement and is created
    without expiry; a present key keeps its expiry. *)
Definition Decr (now : Z) (db : Store) (key : string) : Result (Z * Store) :=
  match lookup now db key with
  | None => Ok (-1, <[key := mkEntry (JNum (-1)) None]> db)
  | Some e =>
      match value e with
      | JNum n =>
          if in_int64 n && negb (n =? min_int64)
          then Ok (n - 1, <[key := mkEntry (JNum (n - 1)) (expireAt e)]> db)
          else Err (ErrExternal "ERR increment or decrement would overflow")
      | _ => Err (ErrExternal "ERR value is not an integer or out of range")
      end
  end.

(** The seconds go-redis sends with EXPIRE. *)
Definition expire_secs (d : Z) : Z :=
  if (0 <? d) && (d <? time.Second) then 1 else Z.quot d time.Second.

(** EXPIRE: false on an absent key; a non-positive time deletes. *)
Definition Expire (now : Z) (db : Store) (key : string) (ttl : Z) : bool * Store :=
  match lookup now db key with
  | None => (false, db)
  | Some e =>
      if expire_secs ttl <=? 0 then (true, delete key db)
      else (true, <[key := mkEntry (value e) (Some (now + expire_secs ttl * time.Second))]> db)
  end.

(** DEL *)
Definition Del (db : Store) (key : string) : Store := delete key db.

(** Glob-style key patterns: [*], [?] and [\c]; bracket classes are not
    modelled (the gateway's only pattern is the single star). *)
Fixpoint glob_match (p : string) : string -> bool :=
  match p with
  | EmptyString => fun s => match s with EmptyString => true | _ => false end
  | String c p' =>
      if Ascii.eqb c "*"%char then
        fix star (s : string) : bool :=
          glob_match p' s
          || match s with
             | EmptyString => false
             | String _ s' => star s'
             end
      else if Ascii.eqb c "?"%char then
        fun s => match s with
                 | EmptyString => false
                 | String _ s' => glob_match p' s'
                 end
      else if Ascii.eqb c "\"%char then
        match p' with
        | EmptyString =>
            fun s => match s with
                     | String d EmptyString => Ascii.eqb d c
                     | _ => false
                     end
        | String e p'' =>
            fun s => match s with
                     | EmptyString => false
                     | String d s' => Ascii.eqb d e && glob_match p'' s'
                     end
        end
      else
        fun s => match s with
                 | EmptyString => false
                 | String d s' => Ascii.eqb d c && glob_match p' s'
                 end
  end.

(** A complete SCAN iteration: every live key matching the pattern. *)
Definition Scan (now : Z) (db : Store) (pattern : string) : list string :=
  List.map fst
    (List.filter (fun kv => live now kv.2 && glob_match pattern kv.1)
                 (map_to_list db)).

End Redis.

(** ** The token-bucket rate limiter
    ([internal/infrastructure/ratelimit/token_bucket.go]) *)

Module TokenBucketRateLimiter.

(** [fmt.Sprintf("ratelimit:%s:%s:%s", service.ID, path, client)] *)
Definition key (serviceID path client : string) : string :=
  ("ratelimit:" ++ serviceID ++ ":" ++ path ++ ":" ++ client)%string.

Definition CheckLimit (now : Z) (db : Redis.Store) (request : Request.t)
    (service : Service.t) (endpoint : Endpoint.t) : Result bool :=
  let key := key (Service.ID service) (Request.Path request) (Request.ClientIP request) in
  match Redis.Int (Redis.Get now db key) with
  | Err RedisNil =>
      (* count = endpoint.RateLimit *)
      Ok (negb (Endpoint.RateLimit endpoint <=? 0))
  | Err e => Err e
  | Ok count => Ok (negb (count <=? 0))
  end.

Definition RecordRequest (now : Z) (db : Redis.Store) (request : Request.t)
    (service : Service.t) (endpoint : Endpoint.t) : Result Redis.Store :=
  let key := key (Service.ID service) (Request.Path request) (Request.ClientIP request) in
  match Redis.Decr now db key with
  | Err e => Err e
  | Ok (count, db) =>
      if count =? Redis.wrap64 (Endpoint.RateLimit endpoint - 1)
      then Ok (Redis.Expire now db key time.Minute).2
      else Ok db
  end.

Definition GetLimit (now : Z) (db : Redis.Store) (clientID : string)
    (service : Service.t) (endpoint : Endpoint.t) : Result (Z * Z) :=
  let key := key (Service.ID service) (Endpoint.Path endpoint) clientID in
  match Redis.Int (Redis.Get now db key) with
  | Err RedisNil => Ok (Endpoint.RateLimit endpoint, Endpoint.RateLimit endpoint)
  | Err e => Err e
  | Ok count => Ok (count, Endpoint.RateLimit endpoint)
  end.

(** [k] consecutive [RecordRequest] calls of one client. *)
Fixpoint record_n (k : nat) (now : Z) (db : Redis.Store) (request : Request.t)
    (service : Service.t) (endpoint : Endpoint.t) : Result Redis.Store :=
  match k with
  | O => Ok db
  | S k' =>
      match RecordRequest now db request service endpoint with
      | Err e => Err e
      | Ok db' => record_n k' now db' request service endpoint
      end
  end.

End TokenBucketRateLimiter.

(** ** [encoding/json]

    [base64] and [rfc3339] are the library's encodings of a [[]byte] and of
    a [time.Time]; they are parameters of the development. *)

Section Encoding.

Variable base64 : string -> string.
Variable rfc3339 : Z -> string.

Definition marshal_headers (h : option HeaderMap) : JSON :=
  match h with
  | None => JNull
  | Some m => JObj (List.map (fun kv => (kv.1, JArr (List.map JStr kv.2)))
                             (map_to_list m))
  end.

(** [entity.Response] has no field tags: the keys are the field names. *)
Definition marshal_Response (r : Response.t) : JSON :=
  JObj [ ("RequestID", JStr (Response.RequestID r));
         ("StatusCode", JNum (Response.StatusCode r));
         ("Headers", marshal_headers (Response.Headers r));
         ("Body", JStr (base64 (Response.Body r)));
         ("ContentType", JStr (Response.ContentType r));
         ("ContentLength", JNum (Response.ContentLength r));
         ("Timestamp", JStr (rfc3339 (Response.Timestamp r)));
         ("LatencyMs", JNum (Response.LatencyMs r));
         ("CachedResult", JBool (Response.CachedResult r)) ].

(** [json.Marshal] of what the cache is given. *)
Definition marshal (v : GoAny) : JSON :=
  match v with
  | AnyValue v => marshal_value v
  | AnyResponsePtr r => marshal_Response r
  end.

(** ** The Redis cache ([internal/infrastructure/cache/redis_cache.go]) *)

Definition RedisCache_Set (now : Z) (db : Redis.Store) (key : string)
    (value : GoAny) (ttl : Z) : Result Redis.Store :=
  let data := marshal value in
  Ok (Redis.Set_ now db key data ttl).

(** [Get] with the [*interface{}] destination the adapter passes. *)
Definition RedisCache_Get (now : Z) (db : Redis.Store) (key : string)
  : Result GoAny :=
  match Redis.Get now db key with
  | Err RedisNil => Err ErrNotFound
  | Err e => Err (Wrapf "failed to get cache value" e)
  | Ok data => Ok (AnyValue (unmarshal_value data))
  end.

Definition RedisCache_Delete (db : Redis.Store) (key : string) : Result Redis.Store :=
  Ok (Redis.Del db key).

(** [for iter.Next(ctx) { c.client.Del(ctx, iter.Val()) }] *)
Definition RedisCache_Clear (now : Z) (db : Redis.Store) (pattern : string)
  : Result Redis.Store :=
  Ok (foldr (fun key db => Redis.Del db key) db (Redis.Scan now db pattern)).

(** ** The cache service adapter
    ([internal/infrastructure/cache/cache_service.go]) *)

Definition CacheServiceAdapter_Get (now : Z) (db : Redis.Store) (key : string)
  : GoAny * bool * option GoError :=
  match RedisCache_Get now db key with
  | Err err => (AnyValue VNil, false, Some err)
  | Ok value => (value, true, None)
  end.

Definition CacheServiceAdapter_Set (now : Z) (db : Redis.Store) (key : string)
    (value : GoAny) (ttl : Z) : Result Redis.Store :=
  RedisCache_Set now db key value ttl.

Definition CacheServiceAdapter_Delete (db : Redis.Store) (key : string)
  : Result Redis.Store :=
  RedisCache_Delete db key.

Definition CacheServiceAdapter_Clear (now : Z) (db : Redis.Store)
  : Result Redis.Store :=
  RedisCache_Clear now db "*".

End Encoding.

(** ** The gateway service ([internal/infrastructure/client]) *)

Module GatewayService.

(** [request == nil] is [None]. *)
Definition ValidateRequest (request : option Request.t) : option GoError :=
  match request with
  | None => Some ErrInvalidRequest
  | Some request =>
      if bool_decide (Request.Method request = "") then Some ErrInvalidMethod
      else if bool_decide (Request.Path request = "") then Some ErrInvalidPath
      else None
  end.

(** [m[k] = v] through the reference [l]. *)
Definition store (l : loc) (k : string) (v : list string) (h : Heap) : Heap :=
  <[l := <[k := v]> (default ∅ (h !! l))]> h.

(** [TransformRequest]: a new struct with the fields the literal lists
    ([Authenticated] and [Timeout] keep their zero values) and the same
    [Headers] reference; a fresh map only when that reference is nil. *)
Definition TransformRequest (h : Heap) (request : Request.t) (service : Service.t)
  : Result Request.t * Heap :=
  let '(l, h) :=
    match Request.Headers request with
    | Some l => (l, h)
    | None => let l := fresh (dom h) in (l, <[l := ∅]> h)
    end in
  let transformed :=
    Request.mk (Request.ID request) (Request.Method request)
      (Request.Path request) (Some l) (Request.QueryParams request)
      (Request.Body request) (Request.ClientIP request)
      (Request.Timestamp request) false (Request.UserID request) 0 in
  let h := store l "X-Service-ID" [Service.ID service] h in
  let h := store l "X-Service-Name" [Service.Name service] h in
  (Ok transformed, h).

(** [TransformResponse]: the literal omits [ContentLength]. *)
Definition TransformResponse (response : Response.t) (service : Service.t)
  : Result Response.t :=
  let headers := default ∅ (Response.Headers response) in
  let headers := <["X-Service-ID" := [Service.ID service]]> headers in
  let headers := <["X-Service-Name" := [Service.Name service]]> headers in
  Ok (Response.mk (Response.RequestID response) (Response.StatusCode response)
        (Some headers) (Response.Body response) (Response.ContentType response)
        0 (Response.Timestamp response) (Response.LatencyMs response)
        (Response.CachedResult response)).

(** The headers a request carries, read through its reference. *)
Definition headers_of (h : Heap) (request : Request.t) : HeaderMap :=
  match Request.Headers request with
  | Some l => default ∅ (h !! l)
  | None => ∅
  end.

End GatewayService.

(** The eight hop-by-hop header names. *)
Definition hopByHopHeaders : list string :=
  [ "Connection"; "Keep-Alive"; "Proxy-Authenticate"; "Proxy-Authorization";
    "TE"; "Trailers"; "Transfer-Encoding"; "Upgrade" ].

(** ** The state the pipeline runs against

    The registry, the key-value store, the heap of request header maps,
    the clock reading, and the log of calls that reached the backend
    (method and URL), most recent first. *)

Record World : Type := mkWorld {
  registry : gmap string Service.t;
  redis : Redis.Store;
  heap : Heap;
  now : Z;
  sent : list (string * string)
}.

Definition set_redis (db : Redis.Store) (w : World) : World :=
  mkWorld (registry w) db (heap w) (now w) (sent w).
Definition set_heap (h : Heap) (w : World) : World :=
  mkWorld (registry w) (redis w) h (now w) (sent w).
Definition log_sent (call : string * string) (w : World) : World :=
  mkWorld (registry w) (redis w) (heap w) (now w) (call :: sent w).

(** ** The HTTP client (second part of [proxy_usecase.go])

    [transport] is the network: method, URL without the query string, the
    query parameters, the headers and the body go out; a status, headers
    and a body come back, or an error.  Header names are taken as already
    canonical. *)

Definition Transport : Type :=
  string -> string -> gmap string (list string) -> HeaderMap -> string ->
  Result (Z * HeaderMap * string).

Module HTTPClient.

Definition SendRequest (transport : Transport) (w : World)
    (request : Request.t) (service : Service.t) : Result Response.t * World :=
  let targetURL := (Service.BaseURL service ++ Request.Path request)%string in
  let headers := GatewayService.headers_of (heap w) request in
  let headers := <["X-Forwarded-For" := [Request.ClientIP request]]> headers in
  let headers := <["X-Request-ID" := [Request.ID request]]> headers in
  let w := log_sent (Request.Method request, targetURL) w in
  match transport (Request.Method request) targetURL
          (Request.QueryParams request) headers (Request.Body request) with
  | Err err => (Err (Wrapf "failed to send request" err), w)
  | Ok (status, respHeaders, body) =>
      let contentType :=
        match respHeaders !! "Content-Type" with
        | Some (v :: _) => v
        | _ => ""
        end in
      (Ok (Response.mk (Request.ID request) status (Some respHeaders) body
             contentType 0 (now w) 0 false), w)
  end.

End HTTPClient.

(** ** The interfaces of [internal/domain/service] and
    [internal/domain/repository], as the use case sees them *)

Record ServiceRepository : Type := {
  repo_GetByEndpoint : World -> string -> string -> Result (list Service.t)
}.

Record GatewayPort : Type := {
  gw_ValidateRequest : option Request.t -> option GoError;
  gw_TransformRequest : World -> Request.t -> Service.t -> Result Request.t * World;
  gw_RouteRequest : World -> Request.t -> Result Response.t * World;
  gw_TransformResponse : World -> Response.t -> Service.t -> Result Response.t * World
}.

Record AuthService : Type := {
  auth_Authenticate : World -> Request.t -> bool * string * option GoError;
  auth_Authorize : World -> Request.t -> Service.t -> Endpoint.t -> option GoError
}.

Record RateLimitService : Type := {
  rl_CheckLimit : World -> Request.t -> Service.t -> Endpoint.t -> Result bool;
  rl_RecordRequest : World -> Request.t -> Service.t -> Endpoint.t -> option GoError * World
}.

Record CacheService : Type := {
  cache_Get : World -> string -> GoAny * bool * option GoError;
  cache_Set : World -> string -> GoAny -> Z -> option GoError * World
}.

(** ** The proxy use case ([internal/application/usecase/proxy_usecase.go]) *)

Module ProxyUseCase.

Record t : Type := mk {
  serviceRepo : ServiceRepository;
  gatewayService : GatewayPort;
  authService : AuthService;
  rateLimitService : RateLimitService;
  cacheService : CacheService
}.

(** Lines 63-70: the first endpoint whose path is the request path. *)
Definition matching_endpoint (service : Service.t) (request : Request.t)
  : option Endpoint.t :=
  List.find (fun e => bool_decide (Endpoint.Path e = Request.Path request))
            (Service.Endpoints service).

(** [fmt.Sprintf("%s:%s:%s", service.ID, request.Path, request.Method)] *)
Definition cacheKey (service : Service.t) (request : Request.t) : string :=
  (Service.ID service ++ ":" ++ Request.Path request ++ ":" ++ Request.Method request)%string.

(** Lines 76-94. *)
Definition check_auth (uc : t) (w : World) (request : Request.t)
    (service : Service.t) (endpoint : Endpoint.t) : Result Request.t :=
  if Endpoint.AuthRequired endpoint then
    match auth_Authenticate (authService uc) w request with
    | (_, _, Some err) => Err (Wrapf "authentication failed" err)
    | (false, _, None) => Err (Errorf "unauthorized")
    | (true, userID, None) =>
        let request := Request.with_UserID userID request in
        match auth_Authorize (authService uc) w request service endpoint with
        | Some err => Err (Wrapf "authorization failed" err)
        | None => Ok request
        end
    end
  else Ok request.

(** Lines 96-111; a failure to record is logged and dropped. *)
Definition check_rate_limit (uc : t) (w : World) (request : Request.t)
    (service : Service.t) (endpoint : Endpoint.t) : Result unit * World :=
  if 0 <? Endpoint.RateLimit endpoint then
    match rl_CheckLimit (rateLimitService uc) w request service endpoint with
    | Err err => (Err (Wrapf "rate limit check failed" err), w)
    | Ok false => (Err (Errorf "rate limit exceeded"), w)
    | Ok true =>
        (Ok tt, (rl_RecordRequest (rateLimitService uc) w request service endpoint).2)
    end
  else (Ok tt, w).

(** Lines 113-123: the cached response, when the lookup succeeds and the
    value is a [*entity.Response]. *)
Definition check_cache (uc : t) (w : World) (request : Request.t)
    (service : Service.t) (endpoint : Endpoint.t) : option Response.t :=
  if 0 <? Endpoint.CacheTTL endpoint then
    match cache_Get (cacheService uc) w (cacheKey service request) with
    | (AnyResponsePtr response, true, None) =>
        Some (Response.with_CachedResult true response)
    | _ => None
    end
  else None.

(** Lines 125-151. *)
Definition forward (uc : t) (w : World) (request : Request.t)
    (service : Service.t) (endpoint : Endpoint.t) : Result Response.t * World :=
  match gw_TransformRequest (gatewayService uc) w request service with
  | (Err err, w) => (Err (Wrapf "failed to transform request" err), w)
  | (Ok transformedRequest, w) =>
    match gw_RouteRequest (gatewayService uc) w transformedRequest with
    | (Err err, w) => (Err (Wrapf "failed to route request" err), w)
    | (Ok response, w) =>
      match gw_TransformResponse (gatewayService uc) w response service with
      | (Err err, w) => (Err (Wrapf "failed to transform response" err), w)
      | (Ok transformedResponse, w) =>
          if 0 <? Endpoint.CacheTTL endpoint then
            (Ok transformedResponse,
             (cache_Set (cacheService uc) w (cacheKey service request)
                        (AnyResponsePtr transformedResponse) 0).2)
          else (Ok transformedResponse, w)
      end
    end
  end.

Definition ProxyRequest (uc : t) (w : World) (request : Request.t)
  : Result Response.t * World :=
  match gw_ValidateRequest (gatewayService uc) (Some request) with
  | Some err => (Err (Wrapf "invalid request" err), w)
  | None =>
    match repo_GetByEndpoint (serviceRepo uc) w
            (Request.Path request) (Request.Method request) with
    | Err err => (Err err, w)
    | Ok [] => (Err ErrServiceNotFound, w)
    | Ok (service :: _) =>
      match matching_endpoint service request with
      | None => (Err (Errorf "no endpoint found for path"), w)
      | Some endpoint =>
        match check_auth uc w request service endpoint with
        | Err err => (Err err, w)
        | Ok request =>
          match check_rate_limit uc w request service endpoint with
          | (Err err, w) => (Err err, w)
          | (Ok _, w) =>
            match check_cache uc w request service endpoint with
            | Some response => (Ok response, w)
            | None => forward uc w request service endpoint
            end
          end
        end
      end
    end
  end.

End ProxyUseCase.

(** ** The wiring of [cmd/api/main.go]

    One store serves the rate limiter and the cache, as [redisClient]
    does.  The registry is the in-memory one; the authenticator and the
    network are left to the caller. *)

Section Wiring.

Variable base64 : string -> string.
Variable rfc3339 : Z -> string.
Variable transport : Transport.
Variable auth : AuthService.

Definition mockRepo : ServiceRepository :=
  {| repo_GetByEndpoint w path method :=
       ServiceRepositoryMock.GetByEndpoint (registry w) path method |}.

(** [RouteRequest] sends to its fixed dummy service. *)
Definition dummyService : Service.t :=
  Service.mk "dummy" "dummy" "" "" "http://localhost" 0 0 false ∅ [].

Definition gatewayService : GatewayPort :=
  {| gw_ValidateRequest := GatewayService.ValidateRequest;
     gw_TransformRequest w request service :=
       let '(r, h) := GatewayService.TransformRequest (heap w) request service in
       (r, set_heap h w);
     gw_RouteRequest w request :=
       HTTPClient.SendRequest transport w request dummyService;
     gw_TransformResponse w response service :=
       (GatewayService.TransformResponse response service, w) |}.

Definition lift_store (w : World) (r : Result Redis.Store) : option GoError * World :=
  match r with
  | Ok db => (None, set_redis db w)
  | Err err => (Some err, w)
  end.

Definition rateLimitService : RateLimitService :=
  {| rl_CheckLimit w := TokenBucketRateLimiter.CheckLimit (now w) (redis w);
     rl_RecordRequest w request service endpoint :=
       lift_store w
         (TokenBucketRateLimiter.RecordRequest (now w) (redis w) request service endpoint) |}.

Definition cacheService : CacheService :=
  {| cache_Get w key := CacheServiceAdapter_Get (now w) (redis w) key;
     cache_Set w key value ttl :=
       lift_store w
         (CacheServiceAdapter_Set base64 rfc3339 (now w) (redis w) key value ttl) |}.

Definition proxyUseCase : ProxyUseCase.t :=
  ProxyUseCase.mk mockRepo gatewayService auth rateLimitService cacheService.

End Wiring.

(** ** The JWT authenticator ([internal/infrastructure/auth/jwt_auth.go])

    The token library (golang-jwt v5) is outside the repository.  A token
    string is kept as the three parts its compact form spells: the
    algorithm of the header, the claims document, the signature.  [hmac]
    is the keyed hash: algorithm, key and signing input to signature.
    Claims are plain values. *)

Section JWT.

Variable hmac : string -> string -> string * JSON -> string.

Record Token : Type := mkToken {
  alg : string;
  payload : JSON;
  signature : string
}.

Record JWTAuth : Type := mkJWTAuth {
  secretKey : string;
  issuer : string;
  expiration : Z
}.

(** [token.SignedString(key)] with [jwt.SigningMethodHS256]. *)
Definition SignedString (key : string) (claims : gmap string GoValue) : Result Token :=
  let payload := marshal_value (VMap (map_to_list claims)) in
  Ok (mkToken "HS256" payload (hmac "HS256" key ("HS256", payload))).

(** The four registered claims, then every custom claim written over
    them ([for k, v := range claims { tokenClaims[k] = v }]). *)
Definition GenerateToken (a : JWTAuth) (now : Z) (userID : string)
    (claims : gmap string GoValue) : Result Token :=
  let tokenClaims : gmap string GoValue :=
    <["exp" := VInt (time.Unix (now + expiration a))]>
      (<["iat" := VInt (time.Unix now)]>
         (<["sub" := VString userID]>
            (<["iss" := VString (issuer a)]> ∅))) in
  let tokenClaims := claims ∪ tokenClaims in
  SignedString (secretKey a) tokenClaims.

(** The key function's test that the method is an HMAC one. *)
Definition is_hmac (alg : string) : bool :=
  bool_decide (alg = "HS256") || bool_decide (alg = "HS384")
  || bool_decide (alg = "HS512").

(** The claims document read into [jwt.MapClaims]; of two equal keys
    the later one stays. *)
Definition parse_claims (payload : JSON) : Result (gmap string GoValue) :=
  match payload with
  | JObj fields =>
      Ok (list_to_map
            (reverse (List.map (fun kv => (kv.1, unmarshal_value kv.2)) fields)))
  | _ => Err (ErrExternal "token is malformed")
  end.

(** The library's default validation: [exp] and [nbf], when present,
    must be numbers, [now] before the first and not before the second. *)
Definition validate_claims (now : Z) (claims : gmap string GoValue) : option GoError :=
  match claims !! "exp" with
  | Some (VFloat64 exp) =>
      if now <? exp * time.Second then
        match claims !! "nbf" with
        | Some (VFloat64 nbf) =>
            if now <? nbf * time.Second
            then Some (ErrExternal "token is not valid yet") else None
        | Some _ => Some (ErrExternal "token has invalid claims: invalid type")
        | None => None
        end
      else Some (ErrExternal "token is expired")
  | Some _ => Some (ErrExternal "token has invalid claims: invalid type")
  | None =>
      match claims !! "nbf" with
      | Some (VFloat64 nbf) =>
          if now <? nbf * time.Second
          then Some (ErrExternal "token is not valid yet") else None
      | Some _ => Some (ErrExternal "token has invalid claims: invalid type")
      | None => None
      end
  end.

(** [jwt.Parse] with the key function of [ValidateToken]. *)
Definition Parse (key : string) (now : Z) (tokenString : Token)
  : Result (gmap string GoValue) :=
  match parse_claims (payload tokenString) with
  | Err e => Err e
  | Ok claims =>
      if negb (is_hmac (alg tokenString))
      then Err (ErrExternal "token is unverifiable: unexpected signing method")
      else if negb (bool_decide
                      (signature tokenString
                       = hmac (alg tokenString) key
                           (alg tokenString, payload tokenString)))
      then Err (ErrExternal "token signature is invalid")
      else match validate_claims now claims with
           | Some e => Err e
           | None => Ok claims
           end
  end.

Definition ValidateToken (a : JWTAuth) (now : Z) (tokenString : Token)
  : Result (gmap string GoValue) :=
  Parse (secretKey a) now tokenString.

(** A claim value after it was written into a token and read back. *)
Definition reread (v : GoValue) : GoValue := unmarshal_value (marshal_value v).


End JWT.

(** ** Properties, as the specification words them *)

(** A service serves (path, method): one of its endpoints has exactly that
    path and lists the method or the wildcard. *)
Definition serves (path method : string) (s : Service.t) : Prop :=
  ∃ e, e ∈ Service.Endpoints s
       ∧ Endpoint.Path e = path
       ∧ (method ∈ Endpoint.Methods e ∨ "*" ∈ Endpoint.Methods e).


(** The registry invariant: a service is stored under its own ID and no
    two stored services share a name. *)
Definition registry_wf (r : gmap string Service.t) : Prop :=
  (∀ id s, r !! id = Some s → Service.ID s = id)
  ∧ (∀ i j s s', r !! i = Some s → r !! j = Some s' →
       Service.Name s = Service.Name s' → i = j).

(** No hop-by-hop header is among the headers. *)
Definition hop_free (m : HeaderMap) : Prop :=
  ∀ name, name ∈ hopByHopHeaders → m !! name = None.

(** ** Concrete inputs *)

Module Ex.

(** Two endpoints on one path: the first takes POST and requires
    authentication, the second takes GET, is public, is limited to two
    requests a window and is cacheable for 30 seconds. *)
Definition postUsers : Endpoint.t :=
  Endpoint.mk "/v1/users" ["POST"] 0 true 0 0 0 0.
Definition getUsers : Endpoint.t :=
  Endpoint.mk "/v1/users" ["GET"] 2 false 0 0 0 30.
Definition users : Service.t :=
  Service.mk "svc-1" "users" "1.0.0" "" "http://users:8080" 30 3 true ∅
             [postUsers; getUsers].


Definition orders : Service.t :=
  Service.mk "svc-2" "orders" "1.0.0" "" "http://orders:8080" 30 3 true ∅ [].


(** [users] resubmitted with a new description and its own name. *)
Definition usersEdited : Service.t :=
  Service.mk "svc-1" "users" "1.0.0" "edited" "http://users:8080" 30 3 true ∅
             [postUsers; getUsers].

(** A public, unlimited endpoint, cacheable for 30 seconds. *)
Definition getReport : Endpoint.t :=
  Endpoint.mk "/v1/report" ["GET"] 0 false 0 0 0 30.
Definition reports : Service.t :=
  Service.mk "svc-3" "reports" "1.0.0" "" "http://reports:8080" 30 3 true ∅
             [getReport].
Definition reportRequest : Request.t :=
  Request.mk "req-3" "GET" "/v1/report" None ∅ "" "10.0.0.7" 0 false "" 30000000000.

(** What the backend's answer to that request becomes, forwarded at
    instant [t]. *)
Definition reportResponse (t : Z) : Response.t :=
  Response.mk "req-3" 200
    (Some (<["X-Service-Name" := ["reports"]]>
             (<["X-Service-ID" := ["svc-3"]]>
                (<["Content-Type" := ["text/plain"]]> ∅))))
    "ok" "text/plain" 0 t 0 false.
Definition reportCall : string * string := ("GET", "http://localhost/v1/report").

Definition twoServices : gmap string Service.t :=
  <["svc-2" := orders]> (<["svc-1" := users]> ∅).

Definition getRequest : Request.t :=
  Request.mk "req-1" "GET" "/v1/users" None ∅ "" "10.0.0.7" 0 false "" 30000000000.

(** A request whose header map, at location 1, carries a hop-by-hop
    header. *)
Definition keepAliveHeaders : HeaderMap :=
  <["Connection" := ["keep-alive"]]> (<["Accept" := ["text/plain"]]> ∅).
Definition keepAliveHeap : Heap := <[1%positive := keepAliveHeaders]> ∅.
Definition keepAliveRequest : Request.t :=
  Request.mk "req-2" "GET" "/v1/users" (Some 1%positive) ∅ "" "10.0.0.7" 0
             false "" 30000000000.

Definition backendResponse : Response.t :=
  Response.mk "req-2" 200 (Some keepAliveHeaders) "ok" "text/plain" 2 0 0 false.






(** An authenticator that recognises nobody. *)
Definition nobody : AuthService :=
  {| auth_Authenticate _ _ := (false, "", None);
     auth_Authorize _ _ _ _ := Some (Errorf "authorization required") |}.

(** A backend that answers every call with 200 and the body [ok]. *)
Definition alwaysOk : Transport :=
  fun _ _ _ _ _ => Ok (200, <["Content-Type" := ["text/plain"]]> ∅, "ok").

Definition world (r : gmap string Service.t) (t : Z) : World :=
  mkWorld r ∅ ∅ t [].

(** The clock moved to [t]. *)
Definition at_time (t : Z) (w : World) : World :=
  mkWorld (registry w) (redis w) (heap w) t (sent w).

(** A rate-limit counter of another component in the shared store. *)
Definition counterKey : string :=
  TokenBucketRateLimiter.key "svc-1" "/v1/users" "10.0.0.7".
Definition withCounter : Redis.Store :=
  <[counterKey := Redis.mkEntry (JNum 1) (Some (60 * time.Second))]> ∅.

Definition gatewayAuth : JWTAuth := mkJWTAuth "secret" "api-gateway" (3600 * time.Second).



(** A stand-in for the keyed hash. *)
Definition keyOnly (_ key : string) (_ : string * JSON) : string := key.

End Ex.

(** * Further operations of the same packages *)

(** ** The in-memory registry: reads and [Reset] *)

Module Registry.

Definition GetByID (r : gmap string Service.t) (id : string) : Result Service.t :=
  ServiceRepositoryMock.Get r id.

(** [for _, service := range r.services { services = append(...) }] *)
Definition GetAll (r : gmap string Service.t) : Result (list Service.t) :=
  Ok (List.map snd (map_to_list r)).

(** The first service, in the order of the range, with the name. *)
Definition FindByName (r : gmap string Service.t) (name : string)
  : Result Service.t :=
  match List.find (fun kv => bool_decide (Service.Name kv.2 = name)) (map_to_list r) with
  | Some kv => Ok kv.2
  | None => Err ErrNotFound
  end.

Definition Reset (r : gmap string Service.t) : gmap string Service.t := ∅.

End Registry.

(** ** The service entity: construction and validation
    ([internal/domain/entity/service.go]) *)

Module ServiceOps.

Definition NewService (id name version description baseURL : string)
    (timeout retryCount : Z) : Service.t :=
  Service.mk id name version description baseURL timeout retryCount true ∅ [].

Definition AddEndpoint (s : Service.t) (endpoint : Endpoint.t) : Service.t :=
  Service.mk (Service.ID s) (Service.Name s) (Service.Version s)
    (Service.Description s) (Service.BaseURL s) (Service.Timeout s)
    (Service.RetryCount s) (Service.IsActive s) (Service.Metadata s)
    (Service.Endpoints s ++ [endpoint])%list.

Definition SetActive (s : Service.t) (active : bool) : Service.t :=
  Service.mk (Service.ID s) (Service.Name s) (Service.Version s)
    (Service.Description s) (Service.BaseURL s) (Service.Timeout s)
    (Service.RetryCount s) active (Service.Metadata s) (Service.Endpoints s).

Definition AddMetadata (s : Service.t) (key value : string) : Service.t :=
  Service.mk (Service.ID s) (Service.Name s) (Service.Version s)
    (Service.Description s) (Service.BaseURL s) (Service.Timeout s)
    (Service.RetryCount s) (Service.IsActive s)
    (<[key := value]> (Service.Metadata s)) (Service.Endpoints s).

End ServiceOps.

(** The two nested blocks of an endpoint that [Validate] reads.
    [FailureThreshold] is a [float64]. *)
Record CircuitBreaker : Type := mkCircuitBreaker {
  cb_Enabled : bool;
  cb_FailureThreshold : float;
  cb_MinRequestCount : Z;
  cb_BreakDuration : Z;
  cb_HalfOpenRequests : Z
}.

Record CacheBlock : Type := mkCacheBlock {
  cache_Enabled : bool;
  cache_TTL : Z
}.

Record Blocks : Type := mkBlocks {
  circuitBreaker : CircuitBreaker;
  cacheBlock : CacheBlock
}.

Module Validate.

Definition validMethods : list string :=
  [ "GET"; "POST"; "PUT"; "DELETE"; "PATCH"; "HEAD"; "OPTIONS" ].

(** [for _, method := range e.Methods { if !validMethods[method] ... }] *)
Definition invalid_method (methods : list string) : option string :=
  List.find (fun m => negb (bool_decide (m ∈ validMethods))) methods.

(** [if e.CircuitBreaker.Enabled { ... }] *)
Definition circuit_breaker_error (cb : CircuitBreaker) : option GoError :=
  if cb_Enabled cb then
    if PrimFloat.ltb (cb_FailureThreshold cb) 0%float
       || PrimFloat.ltb 1%float (cb_FailureThreshold cb)
    then Some (Errorf "circuit breaker failure threshold must be between 0 and 1")
    else if cb_MinRequestCount cb <? 0
    then Some (Errorf "circuit breaker minimum request count cannot be negative")
    else if cb_BreakDuration cb <? 0
    then Some (Errorf "circuit breaker break duration cannot be negative")
    else if cb_HalfOpenRequests cb <? 0
    then Some (Errorf "circuit breaker half-open requests cannot be negative")
    else None
  else None.

(** [Endpoint.Validate]; [b] holds the blocks of the endpoint. *)
Definition Endpoint (e : Endpoint.t) (b : Blocks) : option GoError :=
  if bool_decide (Endpoint.Path e = "")
  then Some (Errorf "endpoint path is required")
  else if negb (String.prefix "/" (Endpoint.Path e))
  then Some (Errorf "endpoint path must start with /")
  else match Endpoint.Methods e with
  | [] => Some (Errorf "at least one HTTP method is required")
  | _ =>
  match invalid_method (Endpoint.Methods e) with
  | Some method => Some (Errorf ("invalid HTTP method: " ++ method))
  | None =>
  if Endpoint.RateLimit e <? 0
  then Some (Errorf "rate limit cannot be negative")
  else if Endpoint.Timeout e <? 0
  then Some (Errorf "timeout cannot be negative")
  else if Endpoint.RetryCount e <? 0
  then Some (Errorf "retry count cannot be negative")
  else if Endpoint.RetryDelay e <? 0
  then Some (Errorf "retry delay cannot be negative")
  else match circuit_breaker_error (circuitBreaker b) with
  | Some err => Some err
  | None =>
  if cache_Enabled (cacheBlock b) && (cache_TTL (cacheBlock b) <? 0)
  then Some (Errorf "cache TTL cannot be negative")
  else None
  end
  end
  end.

(** [for i, endpoint := range s.Endpoints { endpoint.Validate() }] from
    index [i] on; [blocks j] holds the blocks of the endpoint at index
    [j]. *)
Fixpoint endpoints_from (i : nat) (endpoints : list Endpoint.t)
    (blocks : nat -> Blocks) : option GoError :=
  match endpoints with
  | [] => None
  | endpoint :: rest =>
      match Endpoint endpoint (blocks i) with
      | Some err => Some (Wrapf ("invalid endpoint at index " ++ pretty i) err)
      | None => endpoints_from (S i) rest blocks
      end
  end.

(** [Service.Validate]; [url_Parse] is the library's parser, giving its
    error if any. *)
Definition Service (url_Parse : string -> option string) (s : Service.t)
    (blocks : nat -> Blocks) : option GoError :=
  if bool_decide (Service.Name s = "")
  then Some (Errorf "service name is required")
  else if bool_decide (Service.BaseURL s = "")
  then Some (Errorf "service base URL is required")
  else match url_Parse (Service.BaseURL s) with
  | Some msg => Some (Wrapf "invalid base URL" (ErrExternal msg))
  | None =>
  match Service.Endpoints s with
  | [] => Some (Errorf "at least one endpoint is required")
  | endpoints => endpoints_from 0 endpoints blocks
  end
  end.

End Validate.

(** ** The Redis cache: [SetNX] and [UpdateTTL] *)


Section MoreCache.

Variable base64 : string -> string.
Variable rfc3339 : Z -> string.


Definition RedisCache_UpdateTTL (now : Z) (db : Redis.Store) (key : string)
    (ttl : Z) : Result Redis.Store :=
  match Redis.Expire now db key ttl with
  | (false, _) => Err ErrNotFound
  | (true, db) => Ok db
  end.

End MoreCache.

(** ** The JWT authenticator: [getAuthToken], [Authenticate], [Authorize]

    [decode] reads a compact token string into its three parts, or fails
    on a string that is not one. *)

(** [strings.TrimPrefix] *)
Definition TrimPrefix (s prefix : string) : string :=
  if String.prefix prefix s
  then String.substring (String.length prefix)
         (String.length s - String.length prefix) s
  else s.

Definition getAuthToken (headers : HeaderMap) : string :=
  match headers !! "Authorization" with
  | Some (authHeader :: _) =>
      if String.prefix "Bearer " authHeader
      then TrimPrefix authHeader "Bearer "
      else authHeader
  | _ => ""
  end.

Section JWTRequests.

Variable hmac : string -> string -> string * JSON -> string.
Variable decode : string -> option Token.

(** [ValidateToken] on the string itself. *)
Definition ValidateTokenString (a : JWTAuth) (now : Z) (tokenString : string)
  : Result (gmap string GoValue) :=
  match decode tokenString with
  | None => Err (ErrExternal "token is malformed")
  | Some token => ValidateToken hmac a now token
  end.

Definition Authenticate (a : JWTAuth) (now : Z) (headers : HeaderMap)
  : bool * string * option GoError :=
  let tokenString := getAuthToken headers in
  if bool_decide (tokenString = "") then (false, "", None)
  else match ValidateTokenString a now tokenString with
  | Err err => (false, "", Some err)
  | Ok claims =>
      match claims !! "sub" with
      | Some (VString userID) => (true, userID, None)
      | _ => (false, "", Some (Errorf "invalid user ID in token"))
      end
  end.

(** [roleStr == "admin" || roleStr == service.Name+":"+endpoint.Path] *)
Definition grants (service : Service.t) (endpoint : Endpoint.t) (role : GoValue)
  : bool :=
  match role with
  | VString roleStr =>
      bool_decide (roleStr = "admin")
      || bool_decide (roleStr = (Service.Name service ++ ":" ++ Endpoint.Path endpoint)%string)
  | _ => false
  end.

Definition Authorize (a : JWTAuth) (now : Z) (headers : HeaderMap)
    (service : Service.t) (endpoint : Endpoint.t) : option GoError :=
  if negb (Endpoint.AuthRequired endpoint) then None
  else
    let tokenString := getAuthToken headers in
    if bool_decide (tokenString = "") then Some (Errorf "authorization required")
    else match ValidateTokenString a now tokenString with
    | Err err => Some err
    | Ok claims =>
        match claims !! "roles" with
        | Some (VSlice roles) =>
            if existsb (grants service endpoint) roles then None
            else Some (Errorf "unauthorized: insufficient permissions")
        | _ => Some (Errorf "invalid roles in token")
        end
    end.

(** The authenticator behind the interface the use case holds. *)
Definition jwtAuthService (a : JWTAuth) : AuthService :=
  {| auth_Authenticate w request :=
       Authenticate a (now w) (GatewayService.headers_of (heap w) request);
     auth_Authorize w request service endpoint :=
       Authorize a (now w) (GatewayService.headers_of (heap w) request)
         service endpoint |}.

End JWTRequests.

(** ** Further properties *)

(** What [Endpoint.Validate] accepts. *)
Definition endpoint_valid (e : Endpoint.t) (b : Blocks) : Prop :=
  String.prefix "/" (Endpoint.Path e) = true
  ∧ Endpoint.Methods e ≠ []
  ∧ (∀ m, m ∈ Endpoint.Methods e → m ∈ Validate.validMethods)
  ∧ 0 ≤ Endpoint.RateLimit e ∧ 0 ≤ Endpoint.Timeout e
  ∧ 0 ≤ Endpoint.RetryCount e ∧ 0 ≤ Endpoint.RetryDelay e
  ∧ (cb_Enabled (circuitBreaker b) = true →
       PrimFloat.ltb (cb_FailureThreshold (circuitBreaker b)) 0%float = false
       ∧ PrimFloat.ltb 1%float (cb_FailureThreshold (circuitBreaker b)) = false
       ∧ 0 ≤ cb_MinRequestCount (circuitBreaker b)
       ∧ 0 ≤ cb_BreakDuration (circuitBreaker b)
       ∧ 0 ≤ cb_HalfOpenRequests (circuitBreaker b))
  ∧ (cache_Enabled (cacheBlock b) = true → 0 ≤ cache_TTL (cacheBlock b)).


(** ** Further example inputs *)

Module Ex2.

(** Both blocks switched off. *)
Definition noBlocks : Blocks :=
  mkBlocks (mkCircuitBreaker false 0%float 0 0 0) (mkCacheBlock false 0).

(** A store that holds the counter of the users GET at [n], without
    expiry. *)
Definition seeded (n : Z) : Redis.Store :=
  <[Ex.counterKey := Redis.mkEntry (JNum n) None]> ∅.

(** A stand-in for the time format of [encoding/json]. *)
Definition stamp (t : Z) : string := pretty t.


(** A world whose registry holds [reports], and the same after the
    report request went through the wired pipeline. *)
Definition reportWorld : World := Ex.world (<["svc-3" := Ex.reports]> ∅) 0.
Definition afterReport : World :=
  (ProxyUseCase.ProxyRequest (proxyUseCase id stamp Ex.alwaysOk Ex.nobody)
     reportWorld Ex.reportRequest).2.



(** The token of [alice], an administrator, its text and a reader that
    knows that text only. *)
Definition aliceClaims : gmap string GoValue :=
  <["roles" := VSlice [VString "admin"]]> ∅.
Definition aliceToken : Token :=
  mkToken "HS256"
    (marshal_value
       (VMap (map_to_list
                (aliceClaims
                 ∪ <["exp" := VInt 3600]>
                     (<["iat" := VInt 0]>
                        (<["sub" := VString "alice"]>
                           (<["iss" := VString "api-gateway"]> ∅)))))))
    "secret".
Definition decodeAlice (s : string) : option Token :=
  if bool_decide (s = "alice-token") then Some aliceToken else None.
Definition aliceHeaders : HeaderMap :=
  <["Authorization" := ["Bearer alice-token"]]> ∅.

(** A POST of the users path whose header map, at location 1, holds
    [Bearer] with nothing after it. *)
Definition postRequest : Request.t :=
  Request.mk "req-4" "POST" "/v1/users" (Some 1%positive) ∅ "" "10.0.0.7" 0
             false "" 30000000000.
Definition bearerWorld : World :=
  mkWorld (<["svc-1" := Ex.users]> ∅) ∅
    (<[1%positive := <["Authorization" := ["Bearer "]]> ∅]> ∅) 0 [].

End Ex2.

(** * Proofs *)

(** ** Registry *)

Section RegistryFacts.

Implicit Types (r : gmap string Service.t) (s service : Service.t).

Lemma any_service_true (P : Service.t → bool) r :
  ServiceRepositoryMock.any_service P r = true
  ↔ ∃ id s, r !! id = Some s ∧ P s = true.
Proof.
  unfold ServiceRepositoryMock.any_service. rewrite existsb_exists. split.
  - intros [[id s] [Hin HP]]. exists id, s. split; [|done].
    by apply elem_of_map_to_list, list_elem_of_In.
  - intros (id & s & Hl & HP). exists (id, s). split; [|done].
    by apply list_elem_of_In, elem_of_map_to_list.
Qed.

Lemma any_service_false (P : Service.t → bool) r :
  ServiceRepositoryMock.any_service P r = false
  ↔ ∀ id s, r !! id = Some s → P s = false.
Proof.
  split.
  - intros Hf id s Hl. destruct (P s) eqn:HP; [|done].
    assert (ServiceRepositoryMock.any_service P r = true) as Ht
      by (apply any_service_true; eauto).
    congruence.
  - intros Hall. destruct (ServiceRepositoryMock.any_service P r) eqn:Ha; [|done].
    apply any_service_true in Ha as (id & s & Hl & HP).
    rewrite (Hall _ _ Hl) in HP. done.
Qed.

Lemma supports_spec method (e : Endpoint.t) :
  ServiceRepositoryMock.supports method e = true
  ↔ method ∈ Endpoint.Methods e ∨ "*" ∈ Endpoint.Methods e.
Proof.
  unfold ServiceRepositoryMock.supports. rewrite existsb_exists. split.
  - intros (m & Hin & Hm). apply list_elem_of_In in Hin.
    apply orb_true_iff in Hm as [Hm|Hm]; apply bool_decide_eq_true in Hm;
      subst; auto.
  - intros [Hin|Hin]; apply list_elem_of_In in Hin.
    + exists method. split; [done|]. rewrite bool_decide_eq_true_2; done.
    + exists "*". split; [done|].
      rewrite (bool_decide_eq_true_2 ("*" = "*")); [|done].
      apply orb_true_r.
Qed.

Lemma matching_endpoints_serves path method s :
  ServiceRepositoryMock.matching_endpoints path method s ≠ []
  ↔ serves path method s.
Proof.
  unfold ServiceRepositoryMock.matching_endpoints, serves. split.
  - intros Hne.
    destruct (List.filter _ (Service.Endpoints s)) as [|e l] eqn:Hf; [done|].
    assert (In e (List.filter
              (λ e, bool_decide (Endpoint.Path e = path)
                    && ServiceRepositoryMock.supports method e)
              (Service.Endpoints s))) as Hin by (rewrite Hf; by left).
    apply filter_In in Hin as [Hin Hb].
    apply andb_true_iff in Hb as [Hp Hs].
    exists e. split; [by apply list_elem_of_In|].
    split; [by apply bool_decide_eq_true in Hp|by apply supports_spec].
  - intros (e & Hin & Hp & Hm) Hnil.
    assert (In e (List.filter
              (λ e, bool_decide (Endpoint.Path e = path)
                    && ServiceRepositoryMock.supports method e)
              (Service.Endpoints s))) as Hf.
    { apply filter_In. split; [by apply list_elem_of_In|].
      apply andb_true_iff. split; [by apply bool_decide_eq_true|].
      by apply supports_spec. }
    rewrite Hnil in Hf. done.
Qed.

Lemma GetByEndpoint_elem r path method s :
  In s (flat_map
          (λ kv, List.map (λ _, kv.2)
                   (ServiceRepositoryMock.matching_endpoints path method kv.2))
          (map_to_list r))
  ↔ (∃ id, r !! id = Some s) ∧ serves path method s.
Proof.
  rewrite in_flat_map. split.
  - intros ([id s'] & Hin & Hs). simpl in Hs.
    apply in_map_iff in Hs as (e & <- & He).
    apply list_elem_of_In, elem_of_map_to_list in Hin. split; [eauto|].
    apply matching_endpoints_serves. intros Hnil. rewrite Hnil in He. done.
  - intros [[id Hl] Hs]. exists (id, s). split.
    + by apply list_elem_of_In, elem_of_map_to_list.
    + simpl. apply matching_endpoints_serves in Hs.
      destruct (ServiceRepositoryMock.matching_endpoints path method s)
        as [|e l]; [done|]. by left.
Qed.

(** The invariant is established by the empty registry and kept by every
    mutation that succeeds. *)
Lemma registry_wf_empty : registry_wf ∅.
Proof. split; intros *; rewrite lookup_empty; done. Qed.

Lemma registry_wf_Create r service r' :
  registry_wf r →
  ServiceRepositoryMock.Create r service = Ok r' → registry_wf r'.
Proof.
  intros [Hid Hname]. unfold ServiceRepositoryMock.Create.
  destruct (ServiceRepositoryMock.any_service _ r) eqn:Hany; [done|].
  intros [= <-]. rewrite any_service_false in Hany.
  set (service' := if bool_decide (Service.ID service = "")
                   then Service.with_ID "test-id" service else service).
  assert (Service.Name service' = Service.Name service) as Hn
    by (unfold service'; by case_bool_decide).
  split.
  - intros id s. rewrite lookup_insert. case_decide; [|by apply Hid].
    intros [= <-]. done.
  - intros i j s s'. rewrite !lookup_insert.
    repeat case_decide; subst; try done.
    + intros [= <-] Hj Heq. rewrite Hn in Heq.
      specialize (Hany _ _ Hj). apply bool_decide_eq_false in Hany. done.
    + intros Hi [= <-] Heq. rewrite Hn in Heq.
      specialize (Hany _ _ Hi). apply bool_decide_eq_false in Hany. done.
    + apply Hname.
Qed.

Lemma registry_wf_Update r service r' :
  registry_wf r →
  ServiceRepositoryMock.Update r service = Ok r' → registry_wf r'.
Proof.
  intros [Hid Hname]. unfold ServiceRepositoryMock.Update.
  destruct (r !! Service.ID service) as [cur|] eqn:Hcur; [|done].
  destruct (ServiceRepositoryMock.any_service _ r) eqn:Hany; [done|].
  intros [= <-]. rewrite any_service_false in Hany.
  assert (∀ j s', r !! j = Some s' → Service.Name s' = Service.Name service →
                  j = Service.ID service) as Hother.
  { intros j s' Hj Heq. specialize (Hany _ _ Hj). simpl in Hany.
    rewrite bool_decide_eq_true_2 in Hany by done. simpl in Hany.
    apply negb_false_iff, bool_decide_eq_true in Hany.
    rewrite <- Hany. symmetry. by apply Hid. }
  split.
  - intros id s. rewrite lookup_insert. case_decide; [|by apply Hid].
    intros [= <-]. done.
  - intros i j s s'. rewrite !lookup_insert.
    repeat case_decide; subst; try done.
    + intros [= <-] Hj Heq. symmetry. by eapply Hother.
    + intros Hi [= <-] Heq. by eapply Hother.
    + apply Hname.
Qed.

Lemma registry_wf_Delete r id r' :
  registry_wf r →
  ServiceRepositoryMock.Delete r id = Ok r' → registry_wf r'.
Proof.
  intros [Hid Hname]. unfold ServiceRepositoryMock.Delete.
  destruct (r !! id); [|done]. intros [= <-]. split.
  - intros i s Hl. apply lookup_delete_Some in Hl as [_ Hl]. by apply Hid.
  - intros i j s s' Hi Hj. apply lookup_delete_Some in Hi as [_ Hi].
    apply lookup_delete_Some in Hj as [_ Hj]. by eapply Hname.
Qed.




End RegistryFacts.





(** The invariant holds of the two-service registry, which two [Create]
    calls build from the empty one. *)
Lemma twoServices_created :
  ∃ r1, ServiceRepositoryMock.Create ∅ Ex.users = Ok r1
        ∧ ServiceRepositoryMock.Create r1 Ex.orders = Ok Ex.twoServices.
Proof.
  exists (<["svc-1" := Ex.users]> ∅). split.
  - unfold ServiceRepositoryMock.Create.
    assert (ServiceRepositoryMock.any_service
              (λ s, bool_decide (Service.Name s = Service.Name Ex.users)) ∅ = false)
      as -> by (apply any_service_false; intros *; by rewrite lookup_empty).
    done.
  - unfold ServiceRepositoryMock.Create.
    assert (ServiceRepositoryMock.any_service
              (λ s, bool_decide (Service.Name s = Service.Name Ex.orders))
              (<["svc-1" := Ex.users]> ∅) = false) as ->.
    { apply any_service_false. intros id s.
      rewrite lookup_insert. case_decide; [|by rewrite lookup_empty].
      intros [= <-]. done. }
    done.
Qed.

Lemma twoServices_wf : registry_wf Ex.twoServices.
Proof.
  destruct twoServices_created as (r1 & H1 & H2).
  eapply registry_wf_Create; [|exact H2].
  eapply registry_wf_Create; [|exact H1].
  apply registry_wf_empty.
Qed.



(** ** Endpoint selection in the pipeline *)

(** The pipeline takes the first-declared endpoint with the request's
    path, whatever its methods. *)
Lemma matching_endpoint_first (service : Service.t) (request : Request.t)
    (before : list Endpoint.t) (e : Endpoint.t) (after : list Endpoint.t) :
  Service.Endpoints service = (before ++ e :: after)%list →
  Endpoint.Path e = Request.Path request →
  Forall (λ e', Endpoint.Path e' ≠ Request.Path request) before →
  ProxyUseCase.matching_endpoint service request = Some e.
Proof.
  unfold ProxyUseCase.matching_endpoint. intros -> He Hbefore.
  induction Hbefore as [|e' l Hne _ IH]; simpl.
  - by rewrite bool_decide_eq_true_2.
  - by rewrite bool_decide_eq_false_2.
Qed.

(** C1, at the failing input.  The service declares POST /v1/users (with
    authentication) before GET /v1/users (public).  For GET /v1/users the
    registry resolves the service, [Service.FindEndpoint] finds the GET
    endpoint, but the pipeline selects the POST endpoint, whose methods
    contain neither GET nor the wildcard, and so turns the public request
    away as unauthorized without calling the backend. *)
Theorem ProxyRequest_selects_endpoint_of_other_method
    (base64 : string → string) (rfc3339 : Z → string) :
  ServiceRepositoryMock.GetByEndpoint (<["svc-1" := Ex.users]> ∅) "/v1/users" "GET"
  = Ok [Ex.users]
  ∧ ProxyUseCase.matching_endpoint Ex.users Ex.getRequest = Some Ex.postUsers
  ∧ ServiceRepositoryMock.supports "GET" Ex.postUsers = false
  ∧ Service.FindEndpoint Ex.users "/v1/users" "GET" = Some Ex.getUsers
  ∧ ProxyUseCase.ProxyRequest
      (proxyUseCase base64 rfc3339 Ex.alwaysOk Ex.nobody)
      (Ex.world (<["svc-1" := Ex.users]> ∅) 0) Ex.getRequest
    = (Err (Errorf "unauthorized"), Ex.world (<["svc-1" := Ex.users]> ∅) 0).
Proof. repeat split; by vm_compute. Qed.

(** ** Key-value store and rate limiter *)

Section RateLimitFacts.

Implicit Types (db : Redis.Store) (key : string) (e : Redis.Entry).

Lemma lookup_insert_live now db key e :
  Redis.live now e = true →
  Redis.lookup now (<[key := e]> db) key = Some e.
Proof.
  intros Hlive. unfold Redis.lookup. by rewrite lookup_insert_eq, Hlive.
Qed.

Lemma wrap64_id (n : Z) : Redis.in_int64 n = true → Redis.wrap64 n = n.
Proof.
  unfold Redis.in_int64, Redis.wrap64, Redis.min_int64, Redis.max_int64.
  intros H. apply andb_true_iff in H as [H1 H2].
  apply Z.leb_le in H1, H2.
  rewrite Z.mod_small; lia.
Qed.

(** On an absent key [RecordRequest] stores -1, and attaches no expiry
    when the limit is positive. *)
Lemma RecordRequest_absent now db request service endpoint :
  let key := TokenBucketRateLimiter.key (Service.ID service)
               (Request.Path request) (Request.ClientIP request) in
  Redis.lookup now db key = None →
  0 < Endpoint.RateLimit endpoint ≤ Redis.max_int64 →
  TokenBucketRateLimiter.RecordRequest now db request service endpoint
  = Ok (<[key := Redis.mkEntry (JNum (-1)) None]> db).
Proof.
  intros key Habs Hlim. unfold TokenBucketRateLimiter.RecordRequest, Redis.Decr.
  fold key. rewrite Habs.
  rewrite wrap64_id.
  - destruct (Z.eqb_spec (-1) (Endpoint.RateLimit endpoint - 1)); [lia|done].
  - unfold Redis.in_int64, Redis.min_int64, Redis.max_int64 in *.
    apply andb_true_iff. split; apply Z.leb_le; lia.
Qed.

(** On a counter without expiry holding [-k], [RecordRequest] stores
    [-k-1], again without expiry. *)
Lemma RecordRequest_negative now db request service endpoint (k : Z) :
  let key := TokenBucketRateLimiter.key (Service.ID service)
               (Request.Path request) (Request.ClientIP request) in
  db !! key = Some (Redis.mkEntry (JNum (- k)) None) →
  0 < k < 2 ^ 63 →
  0 < Endpoint.RateLimit endpoint ≤ Redis.max_int64 →
  TokenBucketRateLimiter.RecordRequest now db request service endpoint
  = Ok (<[key := Redis.mkEntry (JNum (- (k + 1))) None]> db).
Proof.
  intros key Hl Hk Hlim. unfold TokenBucketRateLimiter.RecordRequest, Redis.Decr.
  fold key. unfold Redis.lookup. rewrite Hl. simpl.
  assert (Redis.in_int64 (- k) && negb (- k =? Redis.min_int64) = true) as ->.
  { unfold Redis.in_int64, Redis.min_int64, Redis.max_int64.
    apply andb_true_iff. split.
    - apply andb_true_iff. split; apply Z.leb_le; lia.
    - apply negb_true_iff, Z.eqb_neq. lia. }
  rewrite wrap64_id.
  - destruct (Z.eqb_spec (- k - 1) (Endpoint.RateLimit endpoint - 1)); [lia|].
    by replace (- k - 1) with (- (k + 1)) by lia.
  - unfold Redis.in_int64, Redis.min_int64, Redis.max_int64 in *.
    apply andb_true_iff. split; apply Z.leb_le; lia.
Qed.

(** After [k >= 1] recorded requests from an absent key the counter is
    [-k], without expiry. *)
Lemma record_n_counter (k : nat) now db request service endpoint :
  let key := TokenBucketRateLimiter.key (Service.ID service)
               (Request.Path request) (Request.ClientIP request) in
  Redis.lookup now db key = None →
  0 < Endpoint.RateLimit endpoint ≤ Redis.max_int64 →
  Z.of_nat (S k) < 2 ^ 63 →
  ∃ db', TokenBucketRateLimiter.record_n (S k) now db request service endpoint
         = Ok db'
         ∧ db' !! key = Some (Redis.mkEntry (JNum (- Z.of_nat (S k))) None).
Proof.
  intros key Habs Hlim Hk. simpl TokenBucketRateLimiter.record_n.
  rewrite RecordRequest_absent by done. fold key.
  assert (∀ (j : nat) (m : Z) db1,
            db1 !! key = Some (Redis.mkEntry (JNum (- m)) None) →
            0 < m → m + Z.of_nat j < 2 ^ 63 →
            ∃ db', TokenBucketRateLimiter.record_n j now db1 request service endpoint
                   = Ok db'
                   ∧ db' !! key
                     = Some (Redis.mkEntry (JNum (- (m + Z.of_nat j))) None))
    as Hgen.
  { induction j as [|j IH]; intros m db1 Hl Hm Hb.
    - exists db1. split; [done|]. rewrite Hl.
      by replace (m + Z.of_nat 0) with m by lia.
    - simpl. rewrite (RecordRequest_negative now db1 request service endpoint m)
        by (done || lia). fold key.
      destruct (IH (m + 1) (<[key := Redis.mkEntry (JNum (- (m + 1))) None]> db1))
        as (db' & Hrec & Hl'); [by rewrite lookup_insert_eq|lia|lia|].
      exists db'. split; [done|]. rewrite Hl'.
      by replace (m + 1 + Z.of_nat j) with (m + Z.of_nat (S j)) by lia. }
  destruct (Hgen k 1 (<[key := Redis.mkEntry (JNum (-1)) None]> db))
    as (db' & Hrec & Hl'); [by rewrite lookup_insert_eq|lia|lia|].
  exists db'. split; [done|]. rewrite Hl'.
  by replace (1 + Z.of_nat k) with (Z.of_nat (S k)) by lia.
Qed.

(** Whatever the limit, one recorded request from an absent key is
    enough for [CheckLimit] to refuse, at that instant and ever after. *)
Lemma CheckLimit_after_records (k : nat) now later db request service endpoint :
  let key := TokenBucketRateLimiter.key (Service.ID service)
               (Request.Path request) (Request.ClientIP request) in
  Redis.lookup now db key = None →
  0 < Endpoint.RateLimit endpoint ≤ Redis.max_int64 →
  Z.of_nat (S k) < 2 ^ 63 →
  ∃ db', TokenBucketRateLimiter.record_n (S k) now db request service endpoint
         = Ok db'
         ∧ TokenBucketRateLimiter.CheckLimit later db' request service endpoint
           = Ok false.
Proof.
  intros key Habs Hlim Hk.
  destruct (record_n_counter k now db request service endpoint)
    as (db' & Hrec & Hl); [done..|].
  exists db'. split; [done|].
  unfold TokenBucketRateLimiter.CheckLimit. cbv zeta.
  unfold Redis.Get, Redis.lookup. subst key. rewrite Hl. simpl.
  assert (Redis.in_int64 (- Z.of_nat (S k)) = true) as ->.
  { unfold Redis.in_int64, Redis.min_int64, Redis.max_int64.
    apply andb_true_iff. split; apply Z.leb_le; lia. }
  destruct (Z.leb_spec (- Z.of_nat (S k)) 0); [done|lia].
Qed.

End RateLimitFacts.

(** C2, at the failing input.  With a limit of two and an absent counter,
    [CheckLimit] admits the first request; after that one request is
    recorded, [CheckLimit] refuses, although a single token was consumed;
    the counter then reads -1 and carries no expiry, so the refusal also
    stands an hour later. *)
Theorem CheckLimit_refuses_second_of_two :
  TokenBucketRateLimiter.CheckLimit 0 ∅ Ex.getRequest Ex.users Ex.getUsers = Ok true
  ∧ ∃ db,
      TokenBucketRateLimiter.record_n 1 0 ∅ Ex.getRequest Ex.users Ex.getUsers = Ok db
      ∧ TokenBucketRateLimiter.CheckLimit 0 db Ex.getRequest Ex.users Ex.getUsers
        = Ok false
      ∧ TokenBucketRateLimiter.CheckLimit (3600 * time.Second) db
          Ex.getRequest Ex.users Ex.getUsers = Ok false
      ∧ TokenBucketRateLimiter.GetLimit 0 db "10.0.0.7" Ex.users Ex.getUsers
        = Ok (-1, 2).
Proof.
  split; [by vm_compute|].
  exists (<[Ex.counterKey := Redis.mkEntry (JNum (-1)) None]> ∅).
  repeat split; by vm_compute.
Qed.

(** C3, at the failing input.  With a limit of two and an absent counter,
    [RecordRequest] succeeds and leaves the counter at -1, which is not
    the limit less one, and the counter carries no expiration. *)
Theorem RecordRequest_first_leaves_minus_one :
  Redis.Get 0 ∅ Ex.counterKey = Err RedisNil
  ∧ ∃ db,
      TokenBucketRateLimiter.RecordRequest 0 ∅ Ex.getRequest Ex.users Ex.getUsers
      = Ok db
      ∧ Redis.lookup 0 db Ex.counterKey = Some (Redis.mkEntry (JNum (-1)) None)
      ∧ -1 ≠ Endpoint.RateLimit Ex.getUsers - 1.
Proof.
  split; [by vm_compute|].
  exists (<[Ex.counterKey := Redis.mkEntry (JNum (-1)) None]> ∅).
  repeat split; by vm_compute.
Qed.

(** ** Cache *)

Section CacheFacts.

Implicit Types (db : Redis.Store) (key : string).

Lemma glob_match_star (s : string) : Redis.glob_match "*" s = true.
Proof. induction s as [|c s IH]; [done|]. simpl in *. exact IH. Qed.

Lemma lookup_foldr_Del (keys : list string) db key :
  foldr (λ k acc, Redis.Del acc k) db keys !! key
  = if bool_decide (key ∈ keys) then None else db !! key.
Proof.
  induction keys as [|k keys IH].
  - case_bool_decide as Hin; [by apply not_elem_of_nil in Hin|done].
  - cbn [foldr]. unfold Redis.Del at 1.
    destruct (decide (k = key)) as [->|Hne].
    + rewrite lookup_delete_eq. by rewrite bool_decide_eq_true_2 by left.
    + rewrite lookup_delete_ne by done. rewrite IH.
      destruct (decide (key ∈ keys)) as [Hin|Hin].
      * rewrite !bool_decide_eq_true_2; [done|by right|done].
      * rewrite !bool_decide_eq_false_2; [done| |done].
        intros [->|?]%elem_of_cons; done.
Qed.

Lemma elem_of_Scan_star now db key :
  key ∈ Redis.Scan now db "*"
  ↔ ∃ e, db !! key = Some e ∧ Redis.live now e = true.
Proof.
  unfold Redis.Scan. rewrite list_elem_of_In, in_map_iff. split.
  - intros ([k e] & <- & Hin). apply filter_In in Hin as [Hin Hb].
    apply list_elem_of_In, elem_of_map_to_list in Hin.
    apply andb_true_iff in Hb as [Hlive _]. eauto.
  - intros (e & Hl & Hlive). exists (key, e). split; [done|].
    apply filter_In. split.
    + by apply list_elem_of_In, elem_of_map_to_list.
    + simpl. by rewrite Hlive, glob_match_star.
Qed.

Lemma live_later now later (e : Redis.Entry) :
  now ≤ later → Redis.live now e = false → Redis.live later e = false.
Proof.
  unfold Redis.live. destruct (Redis.expireAt e) as [t|]; [|done].
  intros Hle Hnow. apply Z.ltb_ge in Hnow. apply Z.ltb_ge. lia.
Qed.

(** The value the adapter hands back is never a [*entity.Response]. *)
Lemma CacheServiceAdapter_Get_plain now db key :
  ∃ v found err, CacheServiceAdapter_Get now db key = (AnyValue v, found, err).
Proof.
  unfold CacheServiceAdapter_Get, RedisCache_Get.
  destruct (Redis.Get now db key) as [j|e]; [|destruct e]; eauto.
Qed.

(** So the wired pipeline never answers from the cache. *)
Lemma check_cache_never_hits base64 rfc3339 transport auth
    (w : World) request service endpoint :
  ProxyUseCase.check_cache (proxyUseCase base64 rfc3339 transport auth)
    w request service endpoint = None.
Proof.
  unfold ProxyUseCase.check_cache. destruct (0 <? _); [|done]. simpl.
  by destruct (CacheServiceAdapter_Get_plain (now w) (redis w)
                 (ProxyUseCase.cacheKey service request)) as (v & found & err & ->).
Qed.

(** Every request the wired pipeline answers has been to the backend,
    and its answer is not marked as cached. *)
Lemma ProxyRequest_always_forwards base64 rfc3339 transport auth
    (w w' : World) request (response : Response.t) :
  ProxyUseCase.ProxyRequest (proxyUseCase base64 rfc3339 transport auth) w request
  = (Ok response, w') →
  length (sent w') = S (length (sent w))
  ∧ Response.CachedResult response = false.
Proof.
  unfold ProxyUseCase.ProxyRequest.
  destruct (gw_ValidateRequest _ _); [done|].
  destruct (repo_GetByEndpoint _ _ _ _) as [[|service services]|]; [done| |done].
  destruct (ProxyUseCase.matching_endpoint _ _) as [endpoint|]; [|done].
  destruct (ProxyUseCase.check_auth _ _ _ _ _) as [request'|]; [|done].
  destruct (ProxyUseCase.check_rate_limit _ _ _ _ _) as [[[]|] w1] eqn:Hrl; [|done].
  assert (sent w1 = sent w) as Hsent.
  { revert Hrl. unfold ProxyUseCase.check_rate_limit.
    destruct (0 <? _); [|by intros [= <-]].
    destruct (rl_CheckLimit _ _ _ _ _) as [[|]|]; [|done|done].
    intros [= <-]. simpl. unfold lift_store.
    by destruct (TokenBucketRateLimiter.RecordRequest _ _ _ _ _). }
  rewrite check_cache_never_hits.
  unfold ProxyUseCase.forward. simpl.
  unfold HTTPClient.SendRequest. simpl.
  unfold GatewayService.TransformRequest.
  destruct (Request.Headers request'); simpl;
    (match goal with
     | |- context [transport ?m ?u ?q ?h ?b] =>
         destruct (transport m u q h b) as [[[status headers] body]|]; [|done]
     end);
    (destruct (0 <? Endpoint.CacheTTL endpoint); intros [= <- <-]; simpl;
     by rewrite Hsent).
Qed.

(** And a stored response is stored for good. *)
Lemma RedisCache_Set_zero_ttl base64 rfc3339 now db key (value : GoAny) :
  RedisCache_Set base64 rfc3339 now db key value 0
  = Ok (<[key := Redis.mkEntry (marshal base64 rfc3339 value) None]> db).
Proof. done. Qed.

End CacheFacts.

(** C4, at the failing input.  A public endpoint with [CacheTTL] 30 and a
    backend answering 200.  The first GET is forwarded and its response
    stored, without expiry.  The same GET ten seconds later is forwarded
    again: its response is a fresh one with [CachedResult] false, and the
    backend has then been called twice.  An hour later, long after the 30
    seconds, the entry is still in the store. *)
Theorem ProxyRequest_second_request_reaches_backend
    (base64 : string → string) (rfc3339 : Z → string) :
  let uc := proxyUseCase base64 rfc3339 Ex.alwaysOk Ex.nobody in
  let key := ProxyUseCase.cacheKey Ex.reports Ex.reportRequest in
  let first :=
    ProxyUseCase.ProxyRequest uc (Ex.world (<["svc-3" := Ex.reports]> ∅) 0)
      Ex.reportRequest in
  let second :=
    ProxyUseCase.ProxyRequest uc (Ex.at_time (10 * time.Second) first.2)
      Ex.reportRequest in
  first.1 = Ok (Ex.reportResponse 0)
  ∧ sent first.2 = [Ex.reportCall]
  ∧ Redis.lookup (10 * time.Second) (redis first.2) key
    = Some (Redis.mkEntry
              (marshal_Response base64 rfc3339 (Ex.reportResponse 0)) None)
  ∧ second.1 = Ok (Ex.reportResponse (10 * time.Second))
  ∧ Response.CachedResult (Ex.reportResponse (10 * time.Second)) = false
  ∧ sent second.2 = [Ex.reportCall; Ex.reportCall]
  ∧ Redis.lookup (3600 * time.Second) (redis second.2) key
    = Some (Redis.mkEntry
              (marshal_Response base64 rfc3339
                 (Ex.reportResponse (10 * time.Second))) None).
Proof. repeat split; by vm_compute. Qed.

(** C9 (as amended).  [Clear] of the cache service deletes every key of
    the store it shares with the rate limiter: once it has returned, no
    key at all, whatever its prefix, is present. *)
Theorem Clear_removes_every_key
    (now later : Z) (db : Redis.Store) (key : string) :
  now ≤ later →
  ∃ db', CacheServiceAdapter_Clear now db = Ok db'
         ∧ Redis.Get later db' key = Err RedisNil.
Proof.
  intros Hle. eexists. split; [reflexivity|].
  unfold Redis.Get, Redis.lookup. rewrite lookup_foldr_Del.
  case_bool_decide as Hin; [done|].
  destruct (db !! key) as [e|] eqn:Hl; [|done].
  destruct (Redis.live now e) eqn:Hlive.
  - exfalso. apply Hin, elem_of_Scan_star. eauto.
  - by rewrite (live_later now later e Hle Hlive).
Qed.

(** C9 at a store holding one live rate-limit counter. *)
Lemma Clear_removes_every_key_witness :
  0 ≤ 0
  ∧ ∃ db', CacheServiceAdapter_Clear 0 Ex.withCounter = Ok db'
           ∧ Redis.Get 0 db' Ex.counterKey = Err RedisNil.
Proof.
  split; [lia|]. apply (Clear_removes_every_key 0 0 Ex.withCounter Ex.counterKey). lia.
Defined.

(** C9, refuted as stated: the store holds a rate-limit counter under a
    key prefixed [ratelimit:]; [Clear] succeeds and the counter, readable
    before, is gone after. *)
Lemma Clear_deletes_rate_limit_counter :
  String.prefix "ratelimit:" Ex.counterKey = true
  ∧ ∃ db', CacheServiceAdapter_Clear 0 Ex.withCounter = Ok db'
           ∧ Redis.Get 0 Ex.withCounter Ex.counterKey = Ok (JNum 1)
           ∧ Redis.Get 0 db' Ex.counterKey
             ≠ Redis.Get 0 Ex.withCounter Ex.counterKey.
Proof.
  split; [by vm_compute|]. eexists. split; [reflexivity|].
  split; [by vm_compute|]. by vm_compute.
Qed.

(** ** Gateway transformations *)

Section TransformFacts.

Implicit Types (h : Heap) (request : Request.t) (service : Service.t).

Lemma headers_of_store h request (l : loc) (k : string) (v : list string) :
  Request.Headers request = Some l →
  GatewayService.headers_of (GatewayService.store l k v h) request
  = <[k := v]> (GatewayService.headers_of h request).
Proof.
  intros Hl. unfold GatewayService.headers_of, GatewayService.store.
  rewrite Hl. by rewrite lookup_insert_eq.
Qed.

(** The headers of the transformed request: those of the input with the
    two service headers written over them. *)
Lemma TransformRequest_headers h request service :
  ∃ transformed h',
    GatewayService.TransformRequest h request service = (Ok transformed, h')
    ∧ GatewayService.headers_of h' transformed
      = <["X-Service-Name" := [Service.Name service]]>
          (<["X-Service-ID" := [Service.ID service]]>
             (GatewayService.headers_of h request)).
Proof.
  unfold GatewayService.TransformRequest.
  destruct (Request.Headers request) as [l|] eqn:Hl.
  - do 2 eexists. split; [reflexivity|].
    rewrite !headers_of_store by done.
    unfold GatewayService.headers_of at 2. rewrite Hl.
    unfold GatewayService.headers_of. done.
  - do 2 eexists. split; [reflexivity|].
    rewrite !headers_of_store by done.
    unfold GatewayService.headers_of. simpl. rewrite Hl.
    by rewrite lookup_insert_eq.
Qed.

(** The input request and the transformed one hold the same map. *)
Lemma TransformRequest_shares_headers h request service (l : loc) :
  Request.Headers request = Some l →
  ∃ transformed h',
    GatewayService.TransformRequest h request service = (Ok transformed, h')
    ∧ Request.Headers transformed = Some l
    ∧ GatewayService.headers_of h' request
      = <["X-Service-Name" := [Service.Name service]]>
          (<["X-Service-ID" := [Service.ID service]]>
             (GatewayService.headers_of h request)).
Proof.
  intros Hl. unfold GatewayService.TransformRequest. rewrite Hl.
  do 2 eexists. split; [reflexivity|]. split; [done|].
  by rewrite !headers_of_store.
Qed.

(** A request without a header map is left alone: the new map is at a
    location the heap did not have. *)
Lemma TransformRequest_nil_headers h request service :
  Request.Headers request = None →
  ∃ transformed h',
    GatewayService.TransformRequest h request service = (Ok transformed, h')
    ∧ ∀ l, is_Some (h !! l) → h' !! l = h !! l.
Proof.
  intros Hl. unfold GatewayService.TransformRequest. rewrite Hl.
  do 2 eexists. split; [reflexivity|].
  intros l Hsome. unfold GatewayService.store.
  assert (fresh (dom h) ≠ l) as Hne.
  { intros <-. apply (is_fresh (dom h)). by apply elem_of_dom. }
  by rewrite !lookup_insert_ne.
Qed.

End TransformFacts.

(** C5 (as amended).  The request transformation and the response
    transformation set [X-Service-ID] and [X-Service-Name] to the service's
    ID and name and keep every other header of the input as it is; a
    hop-by-hop header of the input is therefore still there afterwards. *)
Theorem transformations_keep_other_headers
    (h : Heap) (request : Request.t) (response : Response.t)
    (service : Service.t) (name : string) :
  name ≠ "X-Service-ID" → name ≠ "X-Service-Name" →
  (∃ transformed h',
     GatewayService.TransformRequest h request service = (Ok transformed, h')
     ∧ GatewayService.headers_of h' transformed !! "X-Service-ID"
       = Some [Service.ID service]
     ∧ GatewayService.headers_of h' transformed !! "X-Service-Name"
       = Some [Service.Name service]
     ∧ GatewayService.headers_of h' transformed !! name
       = GatewayService.headers_of h request !! name)
  ∧ (∃ transformed headers,
       GatewayService.TransformResponse response service = Ok transformed
       ∧ Response.Headers transformed = Some headers
       ∧ headers !! "X-Service-ID" = Some [Service.ID service]
       ∧ headers !! "X-Service-Name" = Some [Service.Name service]
       ∧ headers !! name = default ∅ (Response.Headers response) !! name).
Proof.
  intros Hid Hname. split.
  - destruct (TransformRequest_headers h request service)
      as (transformed & h' & Heq & Hheaders).
    exists transformed, h'. split; [done|]. rewrite Hheaders.
    split; [|split].
    + rewrite lookup_insert_ne by done. by rewrite lookup_insert_eq.
    + by rewrite lookup_insert_eq.
    + by rewrite !lookup_insert_ne.
  - unfold GatewayService.TransformResponse. do 2 eexists.
    split; [reflexivity|]. split; [reflexivity|].
    split; [|split].
    + rewrite lookup_insert_ne by done. by rewrite lookup_insert_eq.
    + by rewrite lookup_insert_eq.
    + by rewrite !lookup_insert_ne.
Qed.

(** C5 at a request and a response that carry [Connection: keep-alive]. *)
Lemma transformations_keep_other_headers_witness :
  (∃ transformed h',
     GatewayService.TransformRequest Ex.keepAliveHeap Ex.keepAliveRequest Ex.users
     = (Ok transformed, h')
     ∧ GatewayService.headers_of h' transformed !! "Connection"
       = Some ["keep-alive"])
  ∧ (∃ transformed headers,
       GatewayService.TransformResponse Ex.backendResponse Ex.users = Ok transformed
       ∧ Response.Headers transformed = Some headers
       ∧ headers !! "Connection" = Some ["keep-alive"]).
Proof.
  destruct (transformations_keep_other_headers Ex.keepAliveHeap
              Ex.keepAliveRequest Ex.backendResponse Ex.users "Connection")
    as [(t & h' & Heq & _ & _ & Hkeep) (t' & hs & Heq' & Hhs & _ & _ & Hkeep')];
    [discriminate|discriminate|].
  split.
  - exists t, h'. split; [exact Heq|]. rewrite Hkeep. reflexivity.
  - exists t', hs. split; [exact Heq'|]. split; [exact Hhs|].
    rewrite Hkeep'. reflexivity.
Defined.

(** C5, refuted as stated: a request and a response that carry
    [Connection: keep-alive] still carry it after their transformations. *)
Lemma transformations_forward_Connection :
  (∃ transformed h',
     GatewayService.TransformRequest Ex.keepAliveHeap Ex.keepAliveRequest Ex.users
     = (Ok transformed, h')
     ∧ ¬ hop_free (GatewayService.headers_of h' transformed))
  ∧ (∃ transformed,
       GatewayService.TransformResponse Ex.backendResponse Ex.users = Ok transformed
       ∧ ¬ hop_free (default ∅ (Response.Headers transformed))).
Proof.
  split.
  - do 2 eexists. split; [reflexivity|]. intros Hfree.
    specialize (Hfree "Connection"). vm_compute in Hfree.
    discriminate Hfree. by left.
  - eexists. split; [reflexivity|]. intros Hfree.
    specialize (Hfree "Connection"). vm_compute in Hfree.
    discriminate Hfree. by left.
Qed.

(** C8, at the failing input.  The caller's request holds a header map
    without [X-Service-ID]; after [TransformRequest] the transformed
    request holds the same map, and the caller's request, unchanged as a
    struct, shows [X-Service-ID] and [X-Service-Name] through it. *)
Theorem TransformRequest_writes_callers_headers :
  GatewayService.headers_of Ex.keepAliveHeap Ex.keepAliveRequest !! "X-Service-ID"
  = None
  ∧ ∃ transformed h',
      GatewayService.TransformRequest Ex.keepAliveHeap Ex.keepAliveRequest Ex.users
      = (Ok transformed, h')
      ∧ Request.Headers transformed = Request.Headers Ex.keepAliveRequest
      ∧ GatewayService.headers_of h' Ex.keepAliveRequest !! "X-Service-ID"
        = Some ["svc-1"]
      ∧ GatewayService.headers_of h' Ex.keepAliveRequest !! "X-Service-Name"
        = Some ["users"].
Proof.
  split; [by vm_compute|]. do 2 eexists. split; [reflexivity|].
  repeat split; by vm_compute.
Qed.

(** ** Tokens *)

Section TokenFacts.

Lemma List_map_fmap {A B} (f : A → B) (l : list A) : List.map f l = f <$> l.
Proof. induction l as [|x l IH]; [done|]. simpl. by rewrite IH. Qed.

(** Parsing the claims document of a signed map gives the map back,
    each value re-read. *)
Lemma parse_claims_marshal (claims : gmap string GoValue) :
  parse_claims (marshal_value (VMap (map_to_list claims)))
  = Ok (reread <$> claims).
Proof.
  simpl. f_equal. rewrite List.map_map.
  rewrite (map_ext _ (prod_map id reread)) by (by intros [k v]).
  rewrite List_map_fmap.
  rewrite (list_to_map_proper _ (prod_map id reread <$> map_to_list claims)).
  - by rewrite list_to_map_fmap, list_to_map_to_list.
  - rewrite fmap_reverse, reverse_Permutation.
    rewrite <- list_fmap_compose.
    rewrite (list_fmap_ext _ fst (map_to_list claims))
      by (by intros ? [k v]).
    apply NoDup_fst_map_to_list.
  - apply reverse_Permutation.
Qed.

End TokenFacts.




(** * Further properties of the code *)

(** ** Registry: the other operations *)

Section MoreRegistryFacts.

Implicit Types (r : gmap string Service.t) (s service : Service.t).

Lemma FindByName_found r name s :
  Registry.FindByName r name = Ok s →
  (∃ id, r !! id = Some s) ∧ Service.Name s = name.
Proof.
  unfold Registry.FindByName.
  destruct (List.find _ (map_to_list r)) as [[id s']|] eqn:Hfind; [|done].
  intros [= <-]. apply find_some in Hfind as [Hin Hname].
  apply list_elem_of_In, elem_of_map_to_list in Hin.
  apply bool_decide_eq_true in Hname. eauto.
Qed.

Lemma FindByName_missing r name :
  Registry.FindByName r name = Err ErrNotFound
  ↔ ∀ id s, r !! id = Some s → Service.Name s ≠ name.
Proof.
  unfold Registry.FindByName. split.
  - destruct (List.find _ (map_to_list r)) as [kv|] eqn:Hfind; [done|].
    intros _ id s Hl Hname.
    pose proof (find_none _ _ Hfind (id, s)) as Hno. simpl in Hno.
    rewrite bool_decide_eq_true_2 in Hno by done.
    discriminate Hno. by apply list_elem_of_In, elem_of_map_to_list.
  - intros Hall.
    destruct (List.find _ (map_to_list r)) as [[id s]|] eqn:Hfind; [|done].
    apply find_some in Hfind as [Hin Hname].
    apply list_elem_of_In, elem_of_map_to_list in Hin.
    apply bool_decide_eq_true in Hname. by destruct (Hall _ _ Hin).
Qed.

End MoreRegistryFacts.

(** X1.  The registry invariant (every service stored under its own ID,
    no two stored services with one name) holds of the empty registry and
    of the registry after [Reset], and every [Create], [Update] and
    [Delete] that succeeds keeps it. *)
Theorem registry_invariant_kept
    (r r' : gmap string Service.t) (service : Service.t) (id : string) :
  registry_wf r →
  ServiceRepositoryMock.Create r service = Ok r'
  ∨ ServiceRepositoryMock.Update r service = Ok r'
  ∨ ServiceRepositoryMock.Delete r id = Ok r' →
  registry_wf r' ∧ registry_wf (Registry.Reset r).
Proof.
  intros Hwf Hop. split; [|apply registry_wf_empty].
  destruct Hop as [H|[H|H]];
    eauto using registry_wf_Create, registry_wf_Update, registry_wf_Delete.
Qed.

(** X1 for [orders] created beside [users]. *)
Lemma registry_invariant_kept_witness :
  registry_wf Ex.twoServices ∧ registry_wf (Registry.Reset (<["svc-1" := Ex.users]> ∅)).
Proof.
  apply (registry_invariant_kept (<["svc-1" := Ex.users]> ∅) Ex.twoServices
           Ex.orders "").
  - apply (registry_wf_Create ∅ Ex.users); [apply registry_wf_empty|].
    reflexivity.
  - left. reflexivity.
Defined.

(** X2.  [Create] fails only with [ErrAlreadyExists], and exactly when a
    stored service has the name.  Otherwise it stores the service under
    its ID, or under [test-id] when it has none, in place of whatever was
    stored there, and touches no other entry: an ID that is already taken
    is no obstacle. *)
Theorem Create_result (r : gmap string Service.t) (service : Service.t) :
  let id := if bool_decide (Service.ID service = "")
            then "test-id" else Service.ID service in
  match ServiceRepositoryMock.Create r service with
  | Ok r' =>
      (∀ j s, r !! j = Some s → Service.Name s ≠ Service.Name service)
      ∧ ServiceRepositoryMock.Get r' id = Ok (Service.with_ID id service)
      ∧ ∀ j, j ≠ id → r' !! j = r !! j
  | Err e =>
      e = ErrAlreadyExists
      ∧ ∃ j s, r !! j = Some s ∧ Service.Name s = Service.Name service
  end.
Proof.
  intros id. unfold ServiceRepositoryMock.Create.
  destruct (ServiceRepositoryMock.any_service _ r) eqn:Hany.
  - split; [done|]. apply any_service_true in Hany as (j & s & Hl & Hn).
    apply bool_decide_eq_true in Hn. eauto.
  - rewrite any_service_false in Hany.
    assert ((if bool_decide (Service.ID service = "")
             then Service.with_ID "test-id" service else service)
            = Service.with_ID id service) as ->.
    { unfold id. case_bool_decide; [done|]. by destruct service. }
    assert (Service.ID (Service.with_ID id service) = id) as -> by done.
    split; [|split].
    + intros j s Hl. specialize (Hany _ _ Hl).
      by apply bool_decide_eq_false in Hany.
    + unfold ServiceRepositoryMock.Get. by rewrite lookup_insert_eq.
    + intros j Hj. by rewrite lookup_insert_ne.
Qed.

(** X3.  Two services created without an ID both go under [test-id]:
    when neither name is taken both creations succeed, and afterwards the
    first service is no longer in the registry, neither under the ID nor
    under its name. *)
Theorem Create_without_ID_replaces
    (r : gmap string Service.t) (first second : Service.t) :
  Service.ID first = "" → Service.ID second = "" →
  Service.Name first ≠ Service.Name second →
  (∀ j s, r !! j = Some s →
     Service.Name s ≠ Service.Name first ∧ Service.Name s ≠ Service.Name second) →
  ∃ r1 r2,
    ServiceRepositoryMock.Create r first = Ok r1
    ∧ ServiceRepositoryMock.Create r1 second = Ok r2
    ∧ ServiceRepositoryMock.Get r2 "test-id" = Ok (Service.with_ID "test-id" second)
    ∧ Registry.FindByName r2 (Service.Name first) = Err ErrNotFound.
Proof.
  intros Hid1 Hid2 Hne Hfree.
  exists (<["test-id" := Service.with_ID "test-id" first]> r),
         (<["test-id" := Service.with_ID "test-id" second]> r).
  assert (ServiceRepositoryMock.Create r first
          = Ok (<["test-id" := Service.with_ID "test-id" first]> r)) as H1.
  { unfold ServiceRepositoryMock.Create.
    destruct (ServiceRepositoryMock.any_service _ r) eqn:Hany.
    - apply any_service_true in Hany as (j & s & Hl & Hn).
      apply bool_decide_eq_true in Hn. by destruct (Hfree _ _ Hl).
    - by rewrite Hid1. }
  split; [done|]. split; [|split].
  - unfold ServiceRepositoryMock.Create.
    destruct (ServiceRepositoryMock.any_service _ _) eqn:Hany.
    + apply any_service_true in Hany as (j & s & Hl & Hn).
      apply bool_decide_eq_true in Hn.
      destruct (decide (j = "test-id")) as [->|Hj].
      * rewrite lookup_insert_eq in Hl. injection Hl as <-. by destruct Hne.
      * rewrite lookup_insert_ne in Hl by done. by destruct (Hfree _ _ Hl).
    + rewrite Hid2. simpl. by rewrite insert_insert_eq.
  - unfold ServiceRepositoryMock.Get. by rewrite lookup_insert_eq.
  - apply FindByName_missing. intros j s Hl.
    destruct (decide (j = "test-id")) as [->|Hj].
    + rewrite lookup_insert_eq in Hl. injection Hl as <-. simpl. congruence.
    + rewrite lookup_insert_ne in Hl by done. by destruct (Hfree _ _ Hl).
Qed.

(** X3 for [users] and [orders] without their IDs. *)
Lemma Create_without_ID_replaces_witness :
  ∃ r1 r2,
    ServiceRepositoryMock.Create ∅ (Service.with_ID "" Ex.users) = Ok r1
    ∧ ServiceRepositoryMock.Create r1 (Service.with_ID "" Ex.orders) = Ok r2
    ∧ ServiceRepositoryMock.Get r2 "test-id"
      = Ok (Service.with_ID "test-id" (Service.with_ID "" Ex.orders))
    ∧ Registry.FindByName r2 (Service.Name (Service.with_ID "" Ex.users))
      = Err ErrNotFound.
Proof.
  apply (Create_without_ID_replaces ∅ (Service.with_ID "" Ex.users)
           (Service.with_ID "" Ex.orders)); [done|done|by vm_compute|].
  intros j s Hl. by rewrite lookup_empty in Hl.
Defined.

(** X4.  [Update] never creates: on an ID that is not stored it fails
    with [ErrNotFound], whatever the name; on a stored ID it fails with
    [ErrAlreadyExists] exactly when a service under another ID has the
    name, and otherwise replaces that one entry. *)
Theorem Update_result (r : gmap string Service.t) (service : Service.t) :
  match ServiceRepositoryMock.Update r service with
  | Ok r' =>
      is_Some (r !! Service.ID service)
      ∧ (∀ j s, r !! j = Some s → Service.ID s ≠ Service.ID service →
           Service.Name s ≠ Service.Name service)
      ∧ r' !! Service.ID service = Some service
      ∧ ∀ j, j ≠ Service.ID service → r' !! j = r !! j
  | Err e =>
      (e = ErrNotFound ∧ r !! Service.ID service = None)
      ∨ (e = ErrAlreadyExists ∧ is_Some (r !! Service.ID service)
         ∧ ∃ j s, r !! j = Some s ∧ Service.ID s ≠ Service.ID service
                  ∧ Service.Name s = Service.Name service)
  end.
Proof.
  unfold ServiceRepositoryMock.Update.
  destruct (r !! Service.ID service) as [old|] eqn:Hold; [|by left].
  destruct (ServiceRepositoryMock.any_service _ r) eqn:Hany.
  - right. split; [done|]. split; [done|].
    apply any_service_true in Hany as (j & s & Hl & Hn).
    apply andb_true_iff in Hn as [Hn Hi].
    apply bool_decide_eq_true in Hn.
    apply negb_true_iff, bool_decide_eq_false in Hi. eauto.
  - rewrite any_service_false in Hany. split; [done|]. split; [|split].
    + intros j s Hl Hi Hn. specialize (Hany _ _ Hl).
      apply andb_false_iff in Hany as [Hf|Hf].
      * by apply bool_decide_eq_false in Hf.
      * by apply negb_false_iff, bool_decide_eq_true in Hf.
    + by rewrite lookup_insert_eq.
    + intros j Hj. by rewrite lookup_insert_ne.
Qed.

(** X5.  In a registry that satisfies the invariant, deleting a stored
    service removes that entry only, and frees its name: a service of
    that name can be created again.  Deleting what is not stored fails
    with [ErrNotFound]. *)
Theorem Delete_frees_name
    (r : gmap string Service.t) (id : string) (s service : Service.t) :
  registry_wf r → r !! id = Some s → Service.Name service = Service.Name s →
  ∃ r' r'',
    ServiceRepositoryMock.Delete r id = Ok r'
    ∧ ServiceRepositoryMock.Get r' id = Err ErrNotFound
    ∧ (∀ j, j ≠ id → r' !! j = r !! j)
    ∧ ServiceRepositoryMock.Delete r' id = Err ErrNotFound
    ∧ ServiceRepositoryMock.Create r' service = Ok r''.
Proof.
  intros [Hids Hnames] Hl Hname.
  assert (∃ r'', ServiceRepositoryMock.Create (delete id r) service = Ok r'')
    as [r'' Hcreate].
  { unfold ServiceRepositoryMock.Create.
    destruct (ServiceRepositoryMock.any_service _ _) eqn:Hany; [|eauto].
    apply any_service_true in Hany as (j & s' & Hl' & Hn).
    apply bool_decide_eq_true in Hn.
    destruct (decide (j = id)) as [->|Hj].
    - by rewrite lookup_delete_eq in Hl'.
    - rewrite lookup_delete_ne in Hl' by done.
      destruct Hj. apply (Hnames j id s' s); congruence. }
  exists (delete id r), r''.
  unfold ServiceRepositoryMock.Delete, ServiceRepositoryMock.Get.
  rewrite Hl, lookup_delete_eq. repeat split; try done.
  intros j Hj. by rewrite lookup_delete_ne.
Qed.

(** X5 for [users] in the registry of two services. *)
Lemma Delete_frees_name_witness :
  ∃ r' r'',
    ServiceRepositoryMock.Delete Ex.twoServices "svc-1" = Ok r'
    ∧ ServiceRepositoryMock.Get r' "svc-1" = Err ErrNotFound
    ∧ (∀ j, j ≠ "svc-1" → r' !! j = Ex.twoServices !! j)
    ∧ ServiceRepositoryMock.Delete r' "svc-1" = Err ErrNotFound
    ∧ ServiceRepositoryMock.Create r' Ex.usersEdited = Ok r''.
Proof.
  apply (Delete_frees_name Ex.twoServices "svc-1" Ex.users Ex.usersEdited).
  - exact twoServices_wf.
  - by vm_compute.
  - by vm_compute.
Defined.

(** X6.  [FindByName] returns a stored service of that name, or
    [ErrNotFound] when no stored service has it; in a registry that
    satisfies the invariant it returns every stored service when asked
    for its name, and [GetAll] lists each stored service once. *)
Theorem FindByName_finds_stored
    (r : gmap string Service.t) (id : string) (s : Service.t) :
  registry_wf r → r !! id = Some s →
  Registry.FindByName r (Service.Name s) = Ok s
  ∧ Registry.GetByID r id = Ok s
  ∧ (∀ name, Registry.FindByName r name = Err ErrNotFound
             ↔ ∀ j s', r !! j = Some s' → Service.Name s' ≠ name)
  ∧ ∃ all, Registry.GetAll r = Ok all ∧ NoDup all ∧ s ∈ all
           ∧ length all = size r.
Proof.
  intros [Hids Hnames] Hl. split; [|split; [|split]].
  - destruct (Registry.FindByName r (Service.Name s)) as [s'|e] eqn:Hfind.
    + apply FindByName_found in Hfind as [[j Hj] Hn].
      f_equal. assert (j = id) as -> by eauto. congruence.
    + unfold Registry.FindByName in Hfind.
      destruct (List.find _ (map_to_list r)) as [kv|] eqn:Hf; [done|].
      pose proof (find_none _ _ Hf (id, s)) as Hno. simpl in Hno.
      rewrite bool_decide_eq_true_2 in Hno by done.
      discriminate Hno. by apply list_elem_of_In, elem_of_map_to_list.
  - unfold Registry.GetByID, ServiceRepositoryMock.Get. by rewrite Hl.
  - intros name. apply FindByName_missing.
  - eexists. split; [done|]. split; [|split].
    + assert (∀ l : list (string * Service.t),
                NoDup l → (∀ kv, kv ∈ l → r !! kv.1 = Some kv.2) →
                NoDup (List.map snd l)) as Hnd.
      { induction 1 as [|[j x] l Hnotin Hndl IH]; intros Hall; simpl.
        - constructor.
        - constructor.
          + intros Hin. apply list_elem_of_In, in_map_iff in Hin
              as ([j' x'] & Heq & Hin'). simpl in Heq. subst x'.
            apply list_elem_of_In in Hin'.
            pose proof (Hall (j, x) ltac:(left)) as H1.
            pose proof (Hall (j', x) ltac:(by right)) as H2. simpl in *.
            assert (j' = j) as -> by eauto. done.
          + apply IH. intros kv Hkv. apply Hall. by right. }
      apply Hnd; [apply NoDup_map_to_list|].
      intros [j x] Hin. by apply elem_of_map_to_list in Hin.
    + apply list_elem_of_In, in_map_iff. exists (id, s). split; [done|].
      by apply list_elem_of_In, elem_of_map_to_list.
    + by rewrite length_map, length_map_to_list.
Qed.

(** X6 for [orders] in the registry of two services. *)
Lemma FindByName_finds_stored_witness :
  Registry.FindByName Ex.twoServices (Service.Name Ex.orders) = Ok Ex.orders
  ∧ Registry.GetByID Ex.twoServices "svc-2" = Ok Ex.orders
  ∧ (∀ name, Registry.FindByName Ex.twoServices name = Err ErrNotFound
             ↔ ∀ j s', Ex.twoServices !! j = Some s' → Service.Name s' ≠ name)
  ∧ ∃ all, Registry.GetAll Ex.twoServices = Ok all ∧ NoDup all
           ∧ Ex.orders ∈ all ∧ length all = size Ex.twoServices.
Proof.
  apply (FindByName_finds_stored Ex.twoServices "svc-2" Ex.orders).
  - exact twoServices_wf.
  - by vm_compute.
Defined.

(** ** Services and their endpoints *)

Section EndpointFacts.

Lemma has_method_elem method e :
  Service.has_method method e = true ↔ method ∈ Endpoint.Methods e.
Proof.
  unfold Service.has_method. rewrite existsb_exists. split.
  - intros (m & Hin & Hm). apply bool_decide_eq_true in Hm. subst m.
    by apply list_elem_of_In.
  - intros Hin. exists method. split; [by apply list_elem_of_In|].
    by apply bool_decide_eq_true.
Qed.

Lemma invalid_method_None methods :
  Validate.invalid_method methods = None
  ↔ ∀ m, m ∈ methods → m ∈ Validate.validMethods.
Proof.
  unfold Validate.invalid_method. split.
  - intros Hfind m Hin. apply list_elem_of_In in Hin.
    pose proof (find_none _ _ Hfind m Hin) as Hm. simpl in Hm.
    by apply negb_false_iff, bool_decide_eq_true in Hm.
  - intros Hall.
    destruct (List.find _ methods) as [m|] eqn:Hfind; [|done].
    apply find_some in Hfind as [Hin Hm]. apply list_elem_of_In in Hin.
    apply negb_true_iff, bool_decide_eq_false in Hm. by destruct Hm; auto.
Qed.

Lemma Validate_Endpoint_None e b :
  Validate.Endpoint e b = None ↔ endpoint_valid e b.
Proof.
  unfold Validate.Endpoint, endpoint_valid, Validate.circuit_breaker_error.
  destruct (String.prefix "/" (Endpoint.Path e)) eqn:Hprefix; simpl;
    [|split; [by case_bool_decide|by intros [? _]]].
  case_bool_decide as Hpath;
    [rewrite Hpath in Hprefix; discriminate Hprefix|].
  destruct (Endpoint.Methods e) as [|m0 ms] eqn:Hms;
    [split; [done|by intros (_ & ? & _)]|].
  assert (Endpoint.Methods e ≠ []) as Hne by (by rewrite Hms).
  rewrite <- Hms. clear Hms.
  destruct (Validate.invalid_method (Endpoint.Methods e)) as [bad|] eqn:Hinv.
  { split; [done|]. intros (_ & _ & Hall & _).
    apply invalid_method_None in Hall. congruence. }
  rewrite invalid_method_None in Hinv.
  destruct (Z.ltb_spec (Endpoint.RateLimit e) 0);
    [split; [done|intros ?; lia]|].
  destruct (Z.ltb_spec (Endpoint.Timeout e) 0);
    [split; [done|intros ?; lia]|].
  destruct (Z.ltb_spec (Endpoint.RetryCount e) 0);
    [split; [done|intros ?; lia]|].
  destruct (Z.ltb_spec (Endpoint.RetryDelay e) 0);
    [split; [done|intros ?; lia]|].
  destruct b as [[cbOn thr minReq brk half] [cacheOn ttl]]; simpl.
  destruct cbOn; simpl.
  - destruct (PrimFloat.ltb thr 0) eqn:Hlo; simpl;
      [split; [done|intros (_&_&_&_&_&_&_&Hcb&_); by destruct Hcb as [? _]]|].
    destruct (PrimFloat.ltb 1 thr) eqn:Hhi;
      [split; [done|intros (_&_&_&_&_&_&_&Hcb&_);
                    by destruct Hcb as (_ & ? & _)]|].
    destruct (Z.ltb_spec minReq 0);
      [split; [done|intros (_&_&_&_&_&_&_&Hcb&_); destruct Hcb; [done|lia]]|].
    destruct (Z.ltb_spec brk 0);
      [split; [done|intros (_&_&_&_&_&_&_&Hcb&_); destruct Hcb; [done|lia]]|].
    destruct (Z.ltb_spec half 0);
      [split; [done|intros (_&_&_&_&_&_&_&Hcb&_); destruct Hcb; [done|lia]]|].
    destruct cacheOn; simpl.
    + destruct (Z.ltb_spec ttl 0);
        [split; [done|intros (_&_&_&_&_&_&_&_&Hc); specialize (Hc eq_refl); lia]|].
      split; [|done]. intros _. repeat split; intros; try done; try lia; auto.
    + split; [|done]. intros _. repeat split; intros; try done; try lia; auto.
  - destruct cacheOn; simpl.
    + destruct (Z.ltb_spec ttl 0);
        [split; [done|intros (_&_&_&_&_&_&_&_&Hc); specialize (Hc eq_refl); lia]|].
      split; [|done]. intros _. repeat split; intros; try done; try lia; auto.
    + split; [|done]. intros _. repeat split; intros; try done; try lia; auto.
Qed.

Lemma endpoints_from_None i endpoints blocks :
  Validate.endpoints_from i endpoints blocks = None
  ↔ ∀ k e, endpoints !! k = Some e →
           Validate.Endpoint e (blocks (i + k)%nat) = None.
Proof.
  revert i. induction endpoints as [|e0 rest IH]; intros i; simpl.
  - split; [|done]. intros _ k e Hk. by rewrite lookup_nil in Hk.
  - destruct (Validate.Endpoint e0 (blocks i)) as [err|] eqn:Hv.
    + split; [done|]. intros Hall. specialize (Hall 0%nat e0 eq_refl).
      rewrite Nat.add_0_r in Hall. congruence.
    + rewrite IH. split.
      * intros Hall [|k] e Hk; simpl in Hk.
        -- injection Hk as <-. by rewrite Nat.add_0_r.
        -- specialize (Hall k e Hk).
           by replace (i + S k)%nat with (S i + k)%nat by lia.
      * intros Hall k e Hk. specialize (Hall (S k) e Hk).
        by replace (i + S k)%nat with (S i + k)%nat in Hall by lia.
Qed.

Lemma endpoints_from_Some i endpoints blocks err :
  Validate.endpoints_from i endpoints blocks = Some err →
  ∃ k e cause,
    endpoints !! k = Some e
    ∧ Validate.Endpoint e (blocks (i + k)%nat) = Some cause
    ∧ err = Wrapf ("invalid endpoint at index " ++ pretty (i + k)%nat) cause
    ∧ ∀ j e', (j < k)%nat → endpoints !! j = Some e' →
              Validate.Endpoint e' (blocks (i + j)%nat) = None.
Proof.
  revert i. induction endpoints as [|e0 rest IH]; intros i; simpl; [done|].
  destruct (Validate.Endpoint e0 (blocks i)) as [cause|] eqn:Hv.
  - intros [= <-]. exists 0%nat, e0, cause. rewrite Nat.add_0_r.
    repeat split; try done. intros j e' Hj. lia.
  - intros Hrest. apply IH in Hrest as (k & e & cause & Hk & Hc & -> & Hbefore).
    exists (S k), e, cause.
    replace (i + S k)%nat with (S i + k)%nat by lia.
    repeat split; try done.
    intros [|j] e' Hj Hl; simpl in Hl.
    + injection Hl as <-. by rewrite Nat.add_0_r.
    + replace (i + S j)%nat with (S i + j)%nat by lia.
      apply Hbefore; [lia|done].
Qed.

Lemma find_app_first {A} (f : A → bool) (l1 l2 : list A) :
  List.find f (l1 ++ l2)%list
  = match List.find f l1 with Some x => Some x | None => List.find f l2 end.
Proof. induction l1 as [|x l1 IH]; simpl; [done|]. by destruct (f x). Qed.

End EndpointFacts.

(** X7.  [Endpoint.Validate] accepts an endpoint exactly when: the path
    starts with a slash; there is a method and every method is one of the
    seven verbs (the wildcard is not); rate limit, timeout, retry count
    and retry delay are not negative; an enabled circuit breaker has a
    threshold that is neither below 0 nor above 1 and no negative count;
    an enabled cache block has no negative TTL.  The endpoint's own
    [CacheTTL], which the pipeline reads, is not checked. *)
Theorem Validate_Endpoint_accepts (e : Endpoint.t) (b : Blocks) (ttl : Z) :
  (Validate.Endpoint e b = None ↔ endpoint_valid e b)
  ∧ Validate.Endpoint
      (Endpoint.mk (Endpoint.Path e) (Endpoint.Methods e) (Endpoint.RateLimit e)
         (Endpoint.AuthRequired e) (Endpoint.Timeout e) (Endpoint.RetryCount e)
         (Endpoint.RetryDelay e) ttl) b
    = Validate.Endpoint e b
  ∧ (Validate.Endpoint e b = None → "*" ∉ Endpoint.Methods e).
Proof.
  split; [apply Validate_Endpoint_None|]. split; [done|].
  intros Hv Hstar. apply Validate_Endpoint_None in Hv.
  destruct Hv as (_ & _ & Hall & _). specialize (Hall _ Hstar).
  unfold Validate.validMethods in Hall.
  repeat (apply elem_of_cons in Hall as [Hall|Hall]; [discriminate Hall|]).
  by apply elem_of_nil in Hall.
Qed.

(** X8.  [Service.Validate] accepts a service exactly when it has a
    name, a base URL that parses, at least one endpoint, and every
    endpoint is acceptable.  When an endpoint is the cause, the error
    names the least index of an unacceptable endpoint and wraps that
    endpoint's own error. *)
Theorem Validate_Service_result
    (url_Parse : string → option string) (s : Service.t) (blocks : nat → Blocks) :
  match Validate.Service url_Parse s blocks with
  | None =>
      Service.Name s ≠ "" ∧ Service.BaseURL s ≠ ""
      ∧ url_Parse (Service.BaseURL s) = None
      ∧ Service.Endpoints s ≠ []
      ∧ ∀ k e, Service.Endpoints s !! k = Some e → endpoint_valid e (blocks k)
  | Some err =>
      (Service.Name s = "" ∧ err = Errorf "service name is required")
      ∨ (Service.Name s ≠ "" ∧ Service.BaseURL s = ""
         ∧ err = Errorf "service base URL is required")
      ∨ (Service.Name s ≠ "" ∧ Service.BaseURL s ≠ ""
         ∧ ∃ msg, url_Parse (Service.BaseURL s) = Some msg
                  ∧ err = Wrapf "invalid base URL" (ErrExternal msg))
      ∨ (Service.Endpoints s = []
         ∧ err = Errorf "at least one endpoint is required")
      ∨ ∃ k e cause,
          Service.Endpoints s !! k = Some e
          ∧ Validate.Endpoint e (blocks k) = Some cause
          ∧ err = Wrapf ("invalid endpoint at index " ++ pretty k) cause
          ∧ ∀ j e', (j < k)%nat → Service.Endpoints s !! j = Some e' →
                    endpoint_valid e' (blocks j)
  end.
Proof.
  unfold Validate.Service.
  case_bool_decide as Hname; [by left|].
  case_bool_decide as Hurl; [right; by left|].
  destruct (url_Parse (Service.BaseURL s)) as [msg|] eqn:Hparse;
    [right; right; left; eauto|].
  destruct (Service.Endpoints s) as [|e0 rest] eqn:Hes;
    [right; right; right; by left|].
  destruct (Validate.endpoints_from 0 (e0 :: rest) blocks) as [err|] eqn:Hv.
  - do 4 right. apply endpoints_from_Some in Hv
      as (k & e & cause & Hk & Hc & -> & Hbefore).
    exists k, e, cause. do 3 (split; [done|]).
    intros j e' Hj Hl. apply Validate_Endpoint_None. by apply (Hbefore j e').
  - do 4 (split; [done|]). intros k e Hk. apply Validate_Endpoint_None.
    rewrite endpoints_from_None in Hv. by apply (Hv k e).
Qed.

(** X9.  [FindEndpoint] returns the first endpoint, in declaration
    order, that has the path and lists the method itself, and nothing
    when no endpoint does; an endpoint that lists only the wildcard is
    not found. *)
Theorem FindEndpoint_first (s : Service.t) (path method : string) :
  match Service.FindEndpoint s path method with
  | Some e =>
      ∃ before after,
        Service.Endpoints s = (before ++ e :: after)%list
        ∧ Endpoint.Path e = path ∧ method ∈ Endpoint.Methods e
        ∧ ∀ e', e' ∈ before →
                ¬ (Endpoint.Path e' = path ∧ method ∈ Endpoint.Methods e')
  | None =>
      ∀ e, e ∈ Service.Endpoints s →
           ¬ (Endpoint.Path e = path ∧ method ∈ Endpoint.Methods e)
  end.
Proof.
  unfold Service.FindEndpoint.
  induction (Service.Endpoints s) as [|e0 rest IH]; simpl.
  - intros e He. by apply elem_of_nil in He.
  - destruct (bool_decide (Endpoint.Path e0 = path)
              && Service.has_method method e0) eqn:Hm.
    + apply andb_true_iff in Hm as [Hp Hh].
      apply bool_decide_eq_true in Hp. apply has_method_elem in Hh.
      exists [], rest. repeat split; try done.
      intros e' He'. by apply elem_of_nil in He'.
    + assert (¬ (Endpoint.Path e0 = path ∧ method ∈ Endpoint.Methods e0)) as H0.
      { intros [Hp Hh]. apply has_method_elem in Hh.
        by rewrite Hh, bool_decide_eq_true_2 in Hm. }
      destruct (List.find _ rest) as [e|].
      * destruct IH as (before & after & -> & Hp & Hh & Hbefore).
        exists (e0 :: before), after. repeat split; try done.
        intros e' He'. apply elem_of_cons in He' as [->|He']; auto.
      * intros e He. apply elem_of_cons in He as [->|He]; auto.
Qed.

(** X10.  Adding an endpoint to a service never changes what
    [FindEndpoint] already resolves: the new endpoint is found only where
    nothing was found before.  [SetActive] and [AddMetadata] leave every
    resolution as it is, and a service from [NewService] is active and
    resolves nothing. *)
Theorem AddEndpoint_keeps_resolutions
    (s : Service.t) (endpoint : Endpoint.t) (path method : string) :
  Service.FindEndpoint (ServiceOps.AddEndpoint s endpoint) path method
  = match Service.FindEndpoint s path method with
    | Some e => Some e
    | None => if bool_decide (Endpoint.Path endpoint = path)
                 && Service.has_method method endpoint
              then Some endpoint else None
    end
  ∧ (∀ active, Service.FindEndpoint (ServiceOps.SetActive s active) path method
               = Service.FindEndpoint s path method)
  ∧ (∀ key value,
       Service.FindEndpoint (ServiceOps.AddMetadata s key value) path method
       = Service.FindEndpoint s path method)
  ∧ ∀ id name version description baseURL timeout retryCount,
      let fresh := ServiceOps.NewService id name version description baseURL
                     timeout retryCount in
      Service.FindEndpoint fresh path method = None
      ∧ Service.IsActive fresh = true.
Proof.
  split; [|done]. unfold Service.FindEndpoint, ServiceOps.AddEndpoint. simpl.
  by rewrite find_app_first.
Qed.

(** X11.  For a service that [Service.Validate] accepts, the registry's
    matching and [FindEndpoint] agree: the service serves a route exactly
    when [FindEndpoint] resolves it, and the first endpoint the registry
    matches is the one [FindEndpoint] returns. *)
Theorem validated_service_resolution
    (url_Parse : string → option string) (s : Service.t) (blocks : nat → Blocks)
    (path method : string) :
  Validate.Service url_Parse s blocks = None →
  (serves path method s ↔ is_Some (Service.FindEndpoint s path method))
  ∧ head (ServiceRepositoryMock.matching_endpoints path method s)
    = Service.FindEndpoint s path method.
Proof.
  intros Hv.
  assert (∀ e, e ∈ Service.Endpoints s → "*" ∉ Endpoint.Methods e) as Hstar.
  { intros e He Hin. apply list_elem_of_lookup in He as [k Hk].
    unfold Validate.Service in Hv.
    repeat case_bool_decide; try done.
    destruct (url_Parse _); [done|].
    destruct (Service.Endpoints s) as [|e0 rest] eqn:Hes; [done|].
    rewrite endpoints_from_None in Hv. specialize (Hv k e Hk).
    apply Validate_Endpoint_None in Hv. destruct Hv as (_ & _ & Hall & _).
    specialize (Hall _ Hin). unfold Validate.validMethods in Hall.
    repeat (apply elem_of_cons in Hall as [Hall|Hall]; [discriminate Hall|]).
    by apply elem_of_nil in Hall. }
  assert (∀ e, e ∈ Service.Endpoints s →
            ServiceRepositoryMock.supports method e = Service.has_method method e)
    as Hsame.
  { intros e He. specialize (Hstar e He).
    unfold ServiceRepositoryMock.supports, Service.has_method.
    induction (Endpoint.Methods e) as [|m ms IH]; simpl; [done|].
    rewrite IH by (intros Hin; apply Hstar; by right).
    f_equal. rewrite (bool_decide_eq_false_2 (m = "*")); [by rewrite orb_false_r|].
    intros ->. apply Hstar. by left. }
  split.
  - split.
    + intros (e & He & Hp & Hm).
      destruct Hm as [Hm|Hm]; [|by destruct (Hstar e He)].
      destruct (Service.FindEndpoint s path method) as [x|] eqn:Hfind; [eauto|].
      unfold Service.FindEndpoint in Hfind.
      apply list_elem_of_In in He.
      pose proof (find_none _ _ Hfind e He) as Hno. simpl in Hno.
      apply has_method_elem in Hm.
      by rewrite Hm, bool_decide_eq_true_2 in Hno.
    + intros [e Hfind]. unfold Service.FindEndpoint in Hfind.
      apply find_some in Hfind as [He Hm].
      apply andb_true_iff in Hm as [Hp Hm].
      apply bool_decide_eq_true in Hp. apply has_method_elem in Hm.
      exists e. split; [by apply list_elem_of_In|]. auto.
  - unfold ServiceRepositoryMock.matching_endpoints, Service.FindEndpoint.
    induction (Service.Endpoints s) as [|e0 rest IH]; simpl; [done|].
    rewrite (Hsame e0) by (by left).
    destruct (bool_decide (Endpoint.Path e0 = path)
              && Service.has_method method e0); [done|].
    apply IH.
    + intros e He. apply Hstar. by right.
    + intros e He. apply Hsame. by right.
Qed.

(** X11 for the [users] service and a GET of its path. *)
Lemma validated_service_resolution_witness :
  (serves "/v1/users" "GET" Ex.users
   ↔ is_Some (Service.FindEndpoint Ex.users "/v1/users" "GET"))
  ∧ head (ServiceRepositoryMock.matching_endpoints "/v1/users" "GET" Ex.users)
    = Service.FindEndpoint Ex.users "/v1/users" "GET".
Proof.
  apply (validated_service_resolution (fun _ => None) Ex.users
           (fun _ => Ex2.noBlocks) "/v1/users" "GET").
  by vm_compute.
Defined.

(** ** Rate limiter: the counter *)

(** X12.  On a live counter that holds [n], [CheckLimit] admits exactly
    when [n] is positive and [RecordRequest] leaves [n - 1] under the
    same key and touches no other key.  The counter keeps its expiry,
    except when [n] is the endpoint's limit: then it expires a minute
    later. *)
Theorem RecordRequest_counts_down
    (now : Z) (db : Redis.Store) (request : Request.t) (service : Service.t)
    (endpoint : Endpoint.t) (n : Z) (exp : option Z) :
  let key := TokenBucketRateLimiter.key (Service.ID service)
               (Request.Path request) (Request.ClientIP request) in
  db !! key = Some (Redis.mkEntry (JNum n) exp) →
  Redis.live now (Redis.mkEntry (JNum n) exp) = true →
  Redis.min_int64 < n ≤ Redis.max_int64 →
  0 ≤ Endpoint.RateLimit endpoint ≤ Redis.max_int64 →
  TokenBucketRateLimiter.CheckLimit now db request service endpoint = Ok (0 <? n)
  ∧ ∃ db',
      TokenBucketRateLimiter.RecordRequest now db request service endpoint = Ok db'
      ∧ db' !! key
        = Some (Redis.mkEntry (JNum (n - 1))
                  (if n =? Endpoint.RateLimit endpoint
                   then Some (now + time.Minute) else exp))
      ∧ ∀ other, other ≠ key → db' !! other = db !! other.
Proof.
  intros key Hl Hlive Hn Hlim.
  assert (Redis.in_int64 n = true) as Hin.
  { unfold Redis.in_int64. apply andb_true_iff. split; apply Z.leb_le; lia. }
  split.
  - unfold TokenBucketRateLimiter.CheckLimit. cbv zeta. fold key.
    unfold Redis.Get, Redis.lookup. rewrite Hl, Hlive. simpl. rewrite Hin.
    f_equal. destruct (Z.leb_spec n 0), (Z.ltb_spec 0 n); (done || lia).
  - unfold TokenBucketRateLimiter.RecordRequest, Redis.Decr. fold key.
    unfold Redis.lookup at 1. rewrite Hl, Hlive. simpl. rewrite Hin. simpl.
    assert (negb (n =? Redis.min_int64) = true) as ->
      by (apply negb_true_iff, Z.eqb_neq; lia).
    rewrite wrap64_id.
    2:{ unfold Redis.in_int64, Redis.min_int64, Redis.max_int64 in *.
        apply andb_true_iff. split; apply Z.leb_le; lia. }
    destruct (Z.eqb_spec (n - 1) (Endpoint.RateLimit endpoint - 1)) as [Heq|Hne].
    + assert ((n =? Endpoint.RateLimit endpoint) = true) as ->
        by (apply Z.eqb_eq; lia).
      unfold Redis.Expire, Redis.lookup. rewrite lookup_insert_eq.
      assert (Redis.live now (Redis.mkEntry (JNum (n - 1)) exp) = true) as ->
        by done.
      eexists. split; [done|]. simpl. split.
      * by rewrite lookup_insert_eq.
      * intros other Hother. by rewrite !lookup_insert_ne.
    + assert ((n =? Endpoint.RateLimit endpoint) = false) as ->
        by (apply Z.eqb_neq; lia).
      eexists. split; [done|]. split.
      * by rewrite lookup_insert_eq.
      * intros other Hother. by rewrite lookup_insert_ne.
Qed.

(** X12 for a counter at the limit of two. *)
Lemma RecordRequest_counts_down_witness :
  TokenBucketRateLimiter.CheckLimit 0 (Ex2.seeded 2) Ex.getRequest Ex.users
    Ex.getUsers = Ok (0 <? 2)
  ∧ ∃ db',
      TokenBucketRateLimiter.RecordRequest 0 (Ex2.seeded 2) Ex.getRequest
        Ex.users Ex.getUsers = Ok db'
      ∧ db' !! Ex.counterKey
        = Some (Redis.mkEntry (JNum (2 - 1))
                  (if 2 =? Endpoint.RateLimit Ex.getUsers
                   then Some (0 + time.Minute) else None))
      ∧ ∀ other, other ≠ Ex.counterKey → db' !! other = (Ex2.seeded 2) !! other.
Proof.
  apply (RecordRequest_counts_down 0 (Ex2.seeded 2) Ex.getRequest Ex.users
           Ex.getUsers 2 None); by vm_compute.
Defined.

(** X13.  [GetLimit] and [CheckLimit] read the same counter when the
    client ID is the request's client address and the request's path is
    the endpoint's: [CheckLimit] admits exactly when the remaining count
    [GetLimit] reports is positive, and fails with the same error when
    [GetLimit] fails.  The limit [GetLimit] reports is the endpoint's. *)
Theorem GetLimit_agrees_with_CheckLimit
    (now : Z) (db : Redis.Store) (request : Request.t) (service : Service.t)
    (endpoint : Endpoint.t) :
  Request.Path request = Endpoint.Path endpoint →
  match TokenBucketRateLimiter.GetLimit now db (Request.ClientIP request)
          service endpoint with
  | Ok (remaining, limit) =>
      limit = Endpoint.RateLimit endpoint
      ∧ TokenBucketRateLimiter.CheckLimit now db request service endpoint
        = Ok (0 <? remaining)
  | Err e =>
      TokenBucketRateLimiter.CheckLimit now db request service endpoint = Err e
  end.
Proof.
  intros Hpath.
  unfold TokenBucketRateLimiter.GetLimit, TokenBucketRateLimiter.CheckLimit.
  cbv zeta. rewrite Hpath.
  destruct (Redis.Int (Redis.Get now db _)) as [count|e].
  - split; [done|]. f_equal.
    destruct (Z.leb_spec count 0), (Z.ltb_spec 0 count); (done || lia).
  - destruct e; try done. split; [done|]. f_equal.
    destruct (Z.leb_spec (Endpoint.RateLimit endpoint) 0),
             (Z.ltb_spec 0 (Endpoint.RateLimit endpoint)); (done || lia).
Qed.

(** X13 for a GET of the users path and an empty store. *)
Lemma GetLimit_agrees_with_CheckLimit_witness :
  match TokenBucketRateLimiter.GetLimit 0 ∅ (Request.ClientIP Ex.getRequest)
          Ex.users Ex.getUsers with
  | Ok (remaining, limit) =>
      limit = Endpoint.RateLimit Ex.getUsers
      ∧ TokenBucketRateLimiter.CheckLimit 0 ∅ Ex.getRequest Ex.users Ex.getUsers
        = Ok (0 <? remaining)
  | Err e =>
      TokenBucketRateLimiter.CheckLimit 0 ∅ Ex.getRequest Ex.users Ex.getUsers
      = Err e
  end.
Proof.
  apply (GetLimit_agrees_with_CheckLimit 0 ∅ Ex.getRequest Ex.users Ex.getUsers).
  reflexivity.
Defined.

(** X14.  Whatever the positive limit, when a client's counter is absent
    its first [k >= 1] recorded requests leave the counter at [-k] with
    no expiry: from then on, at every later instant, [CheckLimit]
    refuses the client and [GetLimit] reports [-k] remaining. *)
Theorem absent_counter_goes_negative
    (k : nat) (now : Z) (db : Redis.Store) (request : Request.t)
    (service : Service.t) (endpoint : Endpoint.t) :
  let key := TokenBucketRateLimiter.key (Service.ID service)
               (Request.Path request) (Request.ClientIP request) in
  Redis.lookup now db key = None →
  0 < Endpoint.RateLimit endpoint ≤ Redis.max_int64 →
  Z.of_nat (S k) < 2 ^ 63 →
  Request.Path request = Endpoint.Path endpoint →
  ∃ db',
    TokenBucketRateLimiter.record_n (S k) now db request service endpoint = Ok db'
    ∧ db' !! key = Some (Redis.mkEntry (JNum (- Z.of_nat (S k))) None)
    ∧ ∀ later,
        TokenBucketRateLimiter.CheckLimit later db' request service endpoint
        = Ok false
        ∧ TokenBucketRateLimiter.GetLimit later db' (Request.ClientIP request)
            service endpoint
          = Ok (- Z.of_nat (S k), Endpoint.RateLimit endpoint).
Proof.
  intros key Habs Hlim Hk Hpath.
  destruct (record_n_counter k now db request service endpoint)
    as (db' & Hrec & Hl); [done..|].
  exists db'. split; [done|]. split; [done|]. intros later.
  unfold TokenBucketRateLimiter.CheckLimit, TokenBucketRateLimiter.GetLimit.
  cbv zeta. rewrite <- Hpath.
  unfold Redis.Get, Redis.lookup. subst key. rewrite Hl. simpl.
  assert (Redis.in_int64 (- Z.of_nat (S k)) = true) as ->.
  { unfold Redis.in_int64, Redis.min_int64, Redis.max_int64.
    apply andb_true_iff. split; apply Z.leb_le; lia. }
  split; [|done].
  destruct (Z.leb_spec (- Z.of_nat (S k)) 0); [done|lia].
Qed.

(** X14 for three requests against the limit of two. *)
Lemma absent_counter_goes_negative_witness :
  ∃ db',
    TokenBucketRateLimiter.record_n 3 0 ∅ Ex.getRequest Ex.users Ex.getUsers
    = Ok db'
    ∧ db' !! Ex.counterKey = Some (Redis.mkEntry (JNum (- Z.of_nat 3)) None)
    ∧ ∀ later,
        TokenBucketRateLimiter.CheckLimit later db' Ex.getRequest Ex.users
          Ex.getUsers = Ok false
        ∧ TokenBucketRateLimiter.GetLimit later db'
            (Request.ClientIP Ex.getRequest) Ex.users Ex.getUsers
          = Ok (- Z.of_nat 3, Endpoint.RateLimit Ex.getUsers).
Proof.
  apply (absent_counter_goes_negative 2 0 ∅ Ex.getRequest Ex.users Ex.getUsers);
    by vm_compute.
Defined.

(** ** The Redis cache: round trips *)

Section MoreCacheFacts.

Variable base64 : string → string.
Variable rfc3339 : Z → string.

Implicit Types (db : Redis.Store) (key : string).






End MoreCacheFacts.




(** X17.  [RedisCache.Delete] succeeds whether the key is stored or not;
    afterwards the key reads [ErrNotFound] at every instant and every
    other key reads as before. *)
Theorem RedisCache_Delete_then_Get
    (later : Z) (db : Redis.Store) (key : string) :
  ∃ db',
    RedisCache_Delete db key = Ok db'
    ∧ RedisCache_Get later db' key = Err ErrNotFound
    ∧ ∀ other, other ≠ key →
        RedisCache_Get later db' other = RedisCache_Get later db other.
Proof.
  eexists. split; [done|].
  unfold RedisCache_Get, Redis.Get, Redis.lookup, Redis.Del. split.
  - by rewrite lookup_delete_eq.
  - intros other Hother. by rewrite lookup_delete_ne.
Qed.



(** X19.  [RedisCache.UpdateTTL] fails with [ErrNotFound] on a key that
    is absent or expired.  On a live key it succeeds, and from then on
    the key reads as before until the new expiry, which is the time to
    live in whole seconds (rounded towards zero, but one second for a
    positive time to live below a second), and [ErrNotFound] from the
    expiry on; a time to live of less than a second that is not positive
    removes the key at once. *)
Theorem RedisCache_UpdateTTL_result
    (now later : Z) (db : Redis.Store) (key : string) (ttl : Z) :
  now ≤ later →
  match Redis.lookup now db key with
  | None => RedisCache_UpdateTTL now db key ttl = Err ErrNotFound
  | Some _ =>
      ∃ db',
        RedisCache_UpdateTTL now db key ttl = Ok db'
        ∧ RedisCache_Get later db' key
          = (if later <? now + Redis.expire_secs ttl * time.Second
             then RedisCache_Get now db key else Err ErrNotFound)
        ∧ ∀ other, other ≠ key → db' !! other = db !! other
  end.
Proof.
  intros Hle. unfold RedisCache_UpdateTTL, Redis.Expire.
  destruct (Redis.lookup now db key) as [e|] eqn:Hl; [|done].
  assert (RedisCache_Get now db key = Ok (AnyValue (unmarshal_value (Redis.value e))))
    as -> by (unfold RedisCache_Get, Redis.Get; by rewrite Hl).
  assert (0 < time.Second) as Hsec by done.
  destruct (Z.leb_spec (Redis.expire_secs ttl) 0) as [Hneg|Hpos].
  - eexists. split; [done|]. split.
    + unfold RedisCache_Get, Redis.Get, Redis.lookup.
      rewrite lookup_delete_eq.
      destruct (Z.ltb_spec later (now + Redis.expire_secs ttl * time.Second));
        [nia|done].
    + intros other Hother. by rewrite lookup_delete_ne.
  - eexists. split; [done|]. split.
    + unfold RedisCache_Get, Redis.Get, Redis.lookup.
      rewrite lookup_insert_eq. unfold Redis.live. simpl.
      by destruct (later <? now + Redis.expire_secs ttl * time.Second).
    + intros other Hother. by rewrite lookup_insert_ne.
Qed.

(** X19 for the counter key and a time to live of a second and a half. *)
Lemma RedisCache_UpdateTTL_result_witness :
  match Redis.lookup 0 (Ex2.seeded 2) Ex.counterKey with
  | None =>
      RedisCache_UpdateTTL 0 (Ex2.seeded 2) Ex.counterKey 1500000000
      = Err ErrNotFound
  | Some _ =>
      ∃ db',
        RedisCache_UpdateTTL 0 (Ex2.seeded 2) Ex.counterKey 1500000000 = Ok db'
        ∧ RedisCache_Get 1000000000 db' Ex.counterKey
          = (if 1000000000 <? 0 + Redis.expire_secs 1500000000 * time.Second
             then RedisCache_Get 0 (Ex2.seeded 2) Ex.counterKey
             else Err ErrNotFound)
        ∧ ∀ other, other ≠ Ex.counterKey →
            db' !! other = (Ex2.seeded 2) !! other
  end.
Proof.
  apply (RedisCache_UpdateTTL_result 0 1000000000 (Ex2.seeded 2) Ex.counterKey
           1500000000).
  lia.
Defined.



(** ** The pipeline as wired *)

Section PipelineFacts.

Variable base64 : string → string.
Variable rfc3339 : Z → string.
Variable transport : Transport.
Variable auth : AuthService.

Local Abbreviation uc := (proxyUseCase base64 rfc3339 transport auth).

(** What the in-memory registry answers: [ErrNotFound] when no stored
    service serves the route, otherwise a non-empty list whose members
    are stored and serve it. *)
Lemma mock_GetByEndpoint_cases (r : gmap string Service.t) (path method : string) :
  (ServiceRepositoryMock.GetByEndpoint r path method = Err ErrNotFound
   ∧ ∀ id s, r !! id = Some s → ¬ serves path method s)
  ∨ ∃ service rest,
      ServiceRepositoryMock.GetByEndpoint r path method = Ok (service :: rest)
      ∧ (∃ id, r !! id = Some service) ∧ serves path method service.
Proof.
  unfold ServiceRepositoryMock.GetByEndpoint.
  destruct (flat_map _ (map_to_list r)) as [|service rest] eqn:Hfm.
  - left. split; [done|]. intros id s Hl Hs.
    assert (In s []) as Hin; [|done].
    rewrite <- Hfm. apply GetByEndpoint_elem. eauto.
  - right. exists service, rest. split; [done|].
    apply GetByEndpoint_elem. rewrite Hfm. by left.
Qed.

Lemma serves_matching_endpoint (service : Service.t) (request : Request.t) method :
  serves (Request.Path request) method service →
  ∃ e, ProxyUseCase.matching_endpoint service request = Some e
       ∧ e ∈ Service.Endpoints service
       ∧ Endpoint.Path e = Request.Path request.
Proof.
  intros (e0 & He0 & Hp & _). unfold ProxyUseCase.matching_endpoint.
  destruct (List.find _ (Service.Endpoints service)) as [e|] eqn:Hfind.
  - apply find_some in Hfind as [Hin Hb]. apply bool_decide_eq_true in Hb.
    exists e. split; [done|]. split; [by apply list_elem_of_In|done].
  - apply list_elem_of_In in He0.
    pose proof (find_none _ _ Hfind e0 He0) as Hno. simpl in Hno.
    by rewrite bool_decide_eq_true_2 in Hno.
Qed.

(** A request that passes the authentication step differs from the one
    submitted in its user ID at most. *)
Lemma check_auth_Ok (w : World) request service endpoint request' :
  ProxyUseCase.check_auth uc w request service endpoint = Ok request' →
  ∃ userID, request' = Request.with_UserID userID request.
Proof.
  unfold ProxyUseCase.check_auth.
  destruct (Endpoint.AuthRequired endpoint).
  - destruct (auth_Authenticate _ _ _) as [[[] userID] [err|]]; try done.
    destruct (auth_Authorize _ _ _ _ _); [done|]. intros [= <-]. eauto.
  - intros [= <-]. exists (Request.UserID request). by destruct request.
Qed.

(** What the authentication step answers when it fails. *)
Lemma check_auth_Err (w : World) request service endpoint err :
  ProxyUseCase.check_auth uc w request service endpoint = Err err →
  err = Errorf "unauthorized" ∨ ∃ msg cause, err = Wrapf msg cause.
Proof.
  unfold ProxyUseCase.check_auth.
  destruct (Endpoint.AuthRequired endpoint); [|done].
  destruct (auth_Authenticate _ _ _) as [[[] userID] [cause|]];
    try (intros [= <-]; eauto).
  destruct (auth_Authorize _ _ _ _ _); [|done]. intros [= <-]. eauto.
Qed.

(** The rate-limit step either refuses and leaves the state as it is, or
    passes and changes the store at most. *)
Lemma check_rate_limit_cases (w : World) request service endpoint :
  (∃ err, ProxyUseCase.check_rate_limit uc w request service endpoint = (Err err, w)
          ∧ (err = Errorf "rate limit exceeded" ∨ ∃ msg cause, err = Wrapf msg cause))
  ∨ ∃ w1, ProxyUseCase.check_rate_limit uc w request service endpoint = (Ok tt, w1)
          ∧ registry w1 = registry w ∧ heap w1 = heap w ∧ now w1 = now w
          ∧ sent w1 = sent w.
Proof.
  unfold ProxyUseCase.check_rate_limit.
  destruct (0 <? _); [|right; by exists w].
  destruct (rl_CheckLimit _ _ _ _ _) as [[|]|err].
  - right. eexists. split; [done|]. simpl. unfold lift_store.
    by destruct (TokenBucketRateLimiter.RecordRequest _ _ _ _ _).
  - left. eexists. split; [done|]. by left.
  - left. eexists. split; [done|]. right. eauto.
Qed.

(** Forwarding always calls the backend, once, at the fixed base URL of
    [RouteRequest]; it fails only when the call fails. *)
Lemma forward_wired (w : World) request service endpoint :
  ∃ w',
    sent w' = (Request.Method request,
               ("http://localhost" ++ Request.Path request)%string) :: sent w
    ∧ registry w' = registry w ∧ now w' = now w
    ∧ ((∃ cause,
          ProxyUseCase.forward uc w request service endpoint
          = (Err (Wrapf "failed to route request"
                    (Wrapf "failed to send request" cause)), w'))
       ∨ ∃ response hs,
           ProxyUseCase.forward uc w request service endpoint = (Ok response, w')
           ∧ Response.RequestID response = Request.ID request
           ∧ Response.ContentLength response = 0
           ∧ Response.CachedResult response = false
           ∧ Response.Timestamp response = now w
           ∧ Response.Headers response = Some hs
           ∧ hs !! "X-Service-ID" = Some [Service.ID service]
           ∧ hs !! "X-Service-Name" = Some [Service.Name service]).
Proof.
  unfold ProxyUseCase.forward. simpl.
  unfold HTTPClient.SendRequest. simpl.
  unfold GatewayService.TransformRequest.
  destruct (Request.Headers request); simpl;
    (match goal with
     | |- context [transport ?m ?u ?q ?h ?b] =>
         destruct (transport m u q h b) as [[[status headers] body]|cause]
     end).
  1,3: destruct (0 <? Endpoint.CacheTTL endpoint);
       (eexists; split; [|split; [|split; [|right; eexists; eexists;
          split; [reflexivity|]]]]; simpl; try done;
        repeat split; try done;
        by rewrite ?lookup_insert_eq, ?lookup_insert_ne, ?lookup_insert_eq by done).
  all: eexists; split; [|split; [|split; [|left; eexists; reflexivity]]]; done.
Qed.

End PipelineFacts.

(** The stages of the wired pipeline, in order: which stage ends the
    request, and with what. *)
Lemma ProxyRequest_wired_cases
    (base64 : string → string) (rfc3339 : Z → string) (transport : Transport)
    (auth : AuthService) (w : World) (request : Request.t) :
  let uc := proxyUseCase base64 rfc3339 transport auth in
  let result := ProxyUseCase.ProxyRequest uc w request in
  (∃ err, GatewayService.ValidateRequest (Some request) = Some err
          ∧ result = (Err (Wrapf "invalid request" err), w))
  ∨ (GatewayService.ValidateRequest (Some request) = None
     ∧ ((result = (Err ErrNotFound, w)
         ∧ ∀ id s, registry w !! id = Some s →
                   ¬ serves (Request.Path request) (Request.Method request) s)
        ∨ ∃ service rest endpoint,
            ServiceRepositoryMock.GetByEndpoint (registry w)
              (Request.Path request) (Request.Method request)
            = Ok (service :: rest)
            ∧ (∃ id, registry w !! id = Some service)
            ∧ serves (Request.Path request) (Request.Method request) service
            ∧ ProxyUseCase.matching_endpoint service request = Some endpoint
            ∧ ((∃ err, ProxyUseCase.check_auth uc w request service endpoint = Err err
                       ∧ result = (Err err, w))
               ∨ ∃ request',
                   ProxyUseCase.check_auth uc w request service endpoint = Ok request'
                   ∧ ((∃ err,
                         ProxyUseCase.check_rate_limit uc w request' service endpoint
                         = (Err err, w)
                         ∧ result = (Err err, w))
                      ∨ ∃ w1,
                          ProxyUseCase.check_rate_limit uc w request' service endpoint
                          = (Ok tt, w1)
                          ∧ result
                            = ProxyUseCase.forward uc w1 request' service endpoint)))).
Proof.
  intros uc result. subst result. unfold ProxyUseCase.ProxyRequest.
  change (gw_ValidateRequest (ProxyUseCase.gatewayService uc) (Some request))
    with (GatewayService.ValidateRequest (Some request)).
  destruct (GatewayService.ValidateRequest (Some request)) as [err|];
    [left; eauto|].
  right. split; [done|].
  change (repo_GetByEndpoint (ProxyUseCase.serviceRepo uc) w
            (Request.Path request) (Request.Method request))
    with (ServiceRepositoryMock.GetByEndpoint (registry w)
            (Request.Path request) (Request.Method request)).
  destruct (mock_GetByEndpoint_cases (registry w) (Request.Path request)
              (Request.Method request))
    as [[-> Hnone]|(service & rest & -> & Hstored & Hserves)]; [by left|].
  right. exists service, rest.
  destruct (serves_matching_endpoint service request _ Hserves)
    as (endpoint & Hm & _ & _).
  exists endpoint. rewrite Hm. do 4 (split; [done|]).
  destruct (ProxyUseCase.check_auth uc w request service endpoint)
    as [request'|err]; [|left; eauto].
  right. exists request'. split; [done|].
  destruct (check_rate_limit_cases base64 rfc3339 transport auth w request'
              service endpoint)
    as [(err & Hrl & _)|(w1 & Hrl & _)]; fold uc in Hrl; rewrite Hrl.
  - left. eauto.
  - right. exists w1. split; [done|].
    by rewrite (check_cache_never_hits base64 rfc3339 transport auth).
Qed.

(** X21.  With the in-memory registry, a request with no method or no
    path fails as invalid, and a request that no stored service serves
    fails with the registry's [ErrNotFound], passed on as it is.  In each
    case nothing has happened: the state is the one before. *)
Theorem ProxyRequest_unresolved
    (base64 : string → string) (rfc3339 : Z → string) (transport : Transport)
    (auth : AuthService) (w : World) (request : Request.t) :
  let result :=
    ProxyUseCase.ProxyRequest (proxyUseCase base64 rfc3339 transport auth)
      w request in
  (Request.Method request = "" →
   result = (Err (Wrapf "invalid request" ErrInvalidMethod), w))
  ∧ (Request.Method request ≠ "" → Request.Path request = "" →
     result = (Err (Wrapf "invalid request" ErrInvalidPath), w))
  ∧ (Request.Method request ≠ "" → Request.Path request ≠ "" →
     (∀ id s, registry w !! id = Some s →
              ¬ serves (Request.Path request) (Request.Method request) s) →
     result = (Err ErrNotFound, w)).
Proof.
  intros result. subst result.
  destruct (ProxyRequest_wired_cases base64 rfc3339 transport auth w request)
    as [(err & Hv & ->)|[Hv [[-> Hnone]|Hfound]]];
    unfold GatewayService.ValidateRequest in Hv;
    repeat case_bool_decide; simplify_eq; try done.
  destruct Hfound as (service & rest & endpoint & _ & [id Hl] & Hserves & _).
  repeat split; try done. intros _ _ Hnone. by destruct (Hnone id service).
Qed.

(** X22.  With the in-memory registry two branches of the pipeline are
    never taken: a list of services the registry returns is not empty,
    and its first service has an endpoint on the request's path.  So the
    pipeline never fails with [ErrServiceNotFound], and the only errors it
    returns unwrapped are the registry's [ErrNotFound] and the two
    refusals [unauthorized] and [rate limit exceeded]. *)
Theorem ProxyRequest_dead_branches
    (base64 : string → string) (rfc3339 : Z → string) (transport : Transport)
    (auth : AuthService) (w : World) (request : Request.t) :
  let result :=
    ProxyUseCase.ProxyRequest (proxyUseCase base64 rfc3339 transport auth)
      w request in
  (∀ services,
     ServiceRepositoryMock.GetByEndpoint (registry w)
       (Request.Path request) (Request.Method request) = Ok services →
     ∃ service rest endpoint,
       services = service :: rest
       ∧ ProxyUseCase.matching_endpoint service request = Some endpoint
       ∧ Endpoint.Path endpoint = Request.Path request)
  ∧ match result.1 with
    | Ok _ => True
    | Err err =>
        err = ErrNotFound ∨ err = Errorf "unauthorized"
        ∨ err = Errorf "rate limit exceeded" ∨ ∃ msg cause, err = Wrapf msg cause
    end.
Proof.
  intros result. split.
  - intros services Hget.
    destruct (mock_GetByEndpoint_cases (registry w) (Request.Path request)
                (Request.Method request))
      as [[Hnone _]|(service & rest & Hsome & _ & Hserves)]; [congruence|].
    destruct (serves_matching_endpoint service request _ Hserves)
      as (endpoint & Hm & _ & Hp).
    exists service, rest, endpoint. split; [congruence|done].
  - subst result.
    destruct (ProxyRequest_wired_cases base64 rfc3339 transport auth w request)
      as [(err & _ & ->)|[_ [[-> _]|Hfound]]]; simpl; [eauto 10|eauto|].
    destruct Hfound as (service & rest & endpoint & _ & _ & _ & _ & Hstage).
    destruct Hstage as [(err & Hauth & ->)|(request' & _ & Hstage)]; simpl.
    { apply check_auth_Err in Hauth as [->|?]; eauto. }
    destruct Hstage as [(err & Hrl & ->)|(w1 & _ & ->)]; simpl.
    { destruct (check_rate_limit_cases base64 rfc3339 transport auth w request'
                  service endpoint)
        as [(err' & Hrl' & Herr)|(w1 & Hrl' & _)]; [|congruence].
      rewrite Hrl in Hrl'. injection Hrl' as <-.
      destruct Herr as [->|?]; eauto. }
    destruct (forward_wired base64 rfc3339 transport auth w1 request' service
                endpoint)
      as (w' & _ & _ & _ & [(cause & ->)|(response & hs & -> & _)]); simpl;
      eauto 10.
Qed.

(** X23.  Every request the wired pipeline answers has been sent to the
    backend, once, with its own method, at the fixed address of
    [RouteRequest] followed by its path, whatever the base URL of the
    service.  The answer carries the request's ID, a content length of
    zero, the clock reading as its time, the ID and name of a stored
    service that serves the route among its headers, and is never marked
    as cached.  Neither the registry nor the clock changes. *)
Theorem ProxyRequest_success
    (base64 : string → string) (rfc3339 : Z → string) (transport : Transport)
    (auth : AuthService) (w w' : World) (request : Request.t)
    (response : Response.t) :
  ProxyUseCase.ProxyRequest (proxyUseCase base64 rfc3339 transport auth) w request
  = (Ok response, w') →
  sent w' = (Request.Method request,
             ("http://localhost" ++ Request.Path request)%string) :: sent w
  ∧ registry w' = registry w ∧ now w' = now w
  ∧ Response.RequestID response = Request.ID request
  ∧ Response.ContentLength response = 0
  ∧ Response.CachedResult response = false
  ∧ Response.Timestamp response = now w
  ∧ ∃ service hs,
      (∃ id, registry w !! id = Some service)
      ∧ serves (Request.Path request) (Request.Method request) service
      ∧ Response.Headers response = Some hs
      ∧ hs !! "X-Service-ID" = Some [Service.ID service]
      ∧ hs !! "X-Service-Name" = Some [Service.Name service].
Proof.
  intros Hok.
  destruct (ProxyRequest_wired_cases base64 rfc3339 transport auth w request)
    as [(err & _ & Hr)|[_ [[Hr _]|Hfound]]]; [congruence..|].
  destruct Hfound as (service & rest & endpoint & _ & Hstored & Hserves & _ & Hstage).
  destruct Hstage as [(err & _ & Hr)|(request' & Hauth & Hstage)]; [congruence|].
  apply check_auth_Ok in Hauth as [userID ->].
  destruct Hstage as [(err & _ & Hr)|(w1 & Hrl & Hr)]; [congruence|].
  destruct (check_rate_limit_cases base64 rfc3339 transport auth w
              (Request.with_UserID userID request) service endpoint)
    as [(err' & Hrl' & _)|(w1' & Hrl' & Hreg & _ & Hnow & Hsent)]; [congruence|].
  rewrite Hrl in Hrl'. injection Hrl' as <-.
  destruct (forward_wired base64 rfc3339 transport auth w1
              (Request.with_UserID userID request) service endpoint)
    as (w2 & Hsent2 & Hreg2 & Hnow2
        & [(cause & Hf)|(response' & hs & Hf & Hid & Hlen & Hc & Ht & Hh & H1 & H2)]);
    [congruence|].
  rewrite Hok, Hf in Hr. injection Hr as -> ->.
  rewrite Hsent2, Hreg2, Hnow2, Hsent, Hreg, Hnow, Hid, Hlen, Hc, Ht, Hnow.
  do 7 (split; [done|]). exists service, hs. eauto.
Qed.

(** X23 for the report request against a registry holding [reports]. *)
Lemma ProxyRequest_success_witness :
  sent Ex2.afterReport
  = (Request.Method Ex.reportRequest,
     ("http://localhost" ++ Request.Path Ex.reportRequest)%string)
    :: sent Ex2.reportWorld
  ∧ registry Ex2.afterReport = registry Ex2.reportWorld
  ∧ now Ex2.afterReport = now Ex2.reportWorld
  ∧ Response.RequestID (Ex.reportResponse 0) = Request.ID Ex.reportRequest
  ∧ Response.ContentLength (Ex.reportResponse 0) = 0
  ∧ Response.CachedResult (Ex.reportResponse 0) = false
  ∧ Response.Timestamp (Ex.reportResponse 0) = now Ex2.reportWorld
  ∧ ∃ service hs,
      (∃ id, registry Ex2.reportWorld !! id = Some service)
      ∧ serves (Request.Path Ex.reportRequest) (Request.Method Ex.reportRequest)
          service
      ∧ Response.Headers (Ex.reportResponse 0) = Some hs
      ∧ hs !! "X-Service-ID" = Some [Service.ID service]
      ∧ hs !! "X-Service-Name" = Some [Service.Name service].
Proof.
  apply (ProxyRequest_success id Ex2.stamp Ex.alwaysOk Ex.nobody Ex2.reportWorld
           Ex2.afterReport Ex.reportRequest (Ex.reportResponse 0)).
  by vm_compute.
Defined.



(** ** Tokens and the requests that carry them *)

Section MoreTokenFacts.

Variable hmac : string → string → string * JSON → string.

(** A generated token, validated under the same key: accepted before its
    [exp] second, expired from then on. *)
Lemma ValidateToken_generated (a a' : JWTAuth) (now later : Z) (userID : string)
    (claims : gmap string GoValue) :
  secretKey a' = secretKey a →
  claims !! "exp" = None → claims !! "nbf" = None →
  ∃ token,
    GenerateToken hmac a now userID claims = Ok token
    ∧ ValidateToken hmac a' later token
      = (if later <? time.Unix (now + expiration a) * time.Second
         then Ok (reread
                    <$> claims
                        ∪ <["exp" := VInt (time.Unix (now + expiration a))]>
                            (<["iat" := VInt (time.Unix now)]>
                               (<["sub" := VString userID]>
                                  (<["iss" := VString (issuer a)]> ∅))))
         else Err (ErrExternal "token is expired")).
Proof.
  intros Hkey Hexp Hnbf. eexists. split; [reflexivity|].
  unfold GenerateToken, SignedString, ValidateToken, Parse.
  cbn [payload alg signature].
  rewrite parse_claims_marshal, Hkey.
  rewrite bool_decide_eq_true_2 by done.
  change (is_hmac "HS256") with true. cbn [negb].
  unfold validate_claims.
  rewrite !lookup_fmap, !lookup_union_r by done.
  rewrite lookup_insert_eq. cbn.
  by destruct (later <? time.Unix (now + expiration a) * time.Second).
Qed.

Lemma substring_all (s : string) : String.substring 0 (String.length s) s = s.
Proof. induction s as [|c s IH]; [done|]. simpl. by rewrite IH. Qed.

(** A [Bearer] header gives the text after the prefix. *)
Lemma getAuthToken_Bearer (headers : HeaderMap) (s : string) (rest : list string) :
  headers !! "Authorization" = Some (("Bearer " ++ s)%string :: rest) →
  getAuthToken headers = s.
Proof.
  unfold getAuthToken, TrimPrefix. intros ->. cbv [String.append]. cbn.
  assert (String.prefix "" s = true) as -> by (by destruct s).
  rewrite ?Nat.sub_0_r.
  apply substring_all.
Qed.

End MoreTokenFacts.



Section AuthFacts.

Variable hmac : string → string → string * JSON → string.
Variable decode : string → option Token.

Lemma grants_reread service endpoint (role : GoValue) :
  grants service endpoint (reread role) = grants service endpoint role.
Proof. by destruct role. Qed.

(** What [ValidateToken] gives for the text of a generated token. *)
Lemma ValidateTokenString_generated (a : JWTAuth) (now later : Z)
    (userID : string) (claims : gmap string GoValue) (s : string) (token : Token) :
  claims !! "exp" = None → claims !! "nbf" = None →
  GenerateToken hmac a now userID claims = Ok token →
  decode s = Some token →
  ValidateTokenString hmac decode a later s
  = (if later <? time.Unix (now + expiration a) * time.Second
     then Ok (reread
                <$> claims
                    ∪ <["exp" := VInt (time.Unix (now + expiration a))]>
                        (<["iat" := VInt (time.Unix now)]>
                           (<["sub" := VString userID]>
                              (<["iss" := VString (issuer a)]> ∅))))
     else Err (ErrExternal "token is expired")).
Proof.
  intros Hexp Hnbf Hgen Hdec. unfold ValidateTokenString. rewrite Hdec.
  destruct (ValidateToken_generated hmac a a now later userID claims)
    as (token' & Hgen' & Hval); [done..|].
  congruence.
Qed.

End AuthFacts.



(** X27.  [Authorize] lets every request through to an endpoint that
    does not require authentication.  For one that does, the bearer of
    an unexpired generated token is authorized exactly when the token's
    [roles] claim is a list that holds the string [admin] or the
    service's name, a colon and the endpoint's path; a token without a
    list of roles is refused, so a token generated without custom claims
    authorizes nothing. *)
Theorem Authorize_by_roles
    (hmac : string → string → string * JSON → string)
    (decode : string → option Token)
    (a : JWTAuth) (now later : Z) (userID : string)
    (claims : gmap string GoValue) (headers : HeaderMap)
    (s : string) (rest : list string) (token : Token)
    (service : Service.t) (endpoint : Endpoint.t) :
  claims !! "exp" = None → claims !! "nbf" = None →
  GenerateToken hmac a now userID claims = Ok token →
  decode s = Some token → s ≠ "" →
  headers !! "Authorization" = Some (("Bearer " ++ s)%string :: rest) →
  later < time.Unix (now + expiration a) * time.Second →
  Authorize hmac decode a later headers service endpoint
  = (if negb (Endpoint.AuthRequired endpoint) then None
     else match claims !! "roles" with
          | Some (VSlice roles) =>
              if existsb (grants service endpoint) roles then None
              else Some (Errorf "unauthorized: insufficient permissions")
          | _ => Some (Errorf "invalid roles in token")
          end).
Proof.
  intros Hexp Hnbf Hgen Hdec Hs Hh Hlater. unfold Authorize.
  destruct (Endpoint.AuthRequired endpoint); [|done]. cbn [negb].
  rewrite (getAuthToken_Bearer headers s rest Hh).
  rewrite bool_decide_eq_false_2 by done.
  rewrite (ValidateTokenString_generated hmac decode a now later userID claims
             s token) by done.
  destruct (Z.ltb_spec later (time.Unix (now + expiration a) * time.Second));
    [|lia].
  rewrite lookup_fmap.
  destruct (claims !! "roles") as [roles|] eqn:Hroles.
  - rewrite (lookup_union_l' _ _ _ (ltac:(by rewrite Hroles))), Hroles.
    destruct roles as [| | | | |roles|]; try done. simpl.
    assert (existsb (grants service endpoint) (List.map reread roles)
            = existsb (grants service endpoint) roles) as Heq.
    { clear Hroles. induction roles as [|role roles IH]; [done|].
      cbn [List.map existsb]. by rewrite grants_reread, IH. }
    by rewrite List.map_map, <- Heq.
  - rewrite lookup_union_r by done. done.
Qed.

(** X27 for the token of [alice], whose roles are [admin], and the
    protected POST endpoint of [users]. *)
Lemma Authorize_by_roles_witness :
  Authorize Ex.keyOnly Ex2.decodeAlice Ex.gatewayAuth time.Second
    Ex2.aliceHeaders Ex.users Ex.postUsers
  = (if negb (Endpoint.AuthRequired Ex.postUsers) then None
     else match Ex2.aliceClaims !! "roles" with
          | Some (VSlice roles) =>
              if existsb (grants Ex.users Ex.postUsers) roles then None
              else Some (Errorf "unauthorized: insufficient permissions")
          | _ => Some (Errorf "invalid roles in token")
          end).
Proof.
  apply (Authorize_by_roles Ex.keyOnly Ex2.decodeAlice Ex.gatewayAuth
           0 time.Second "alice" Ex2.aliceClaims Ex2.aliceHeaders "alice-token" []
           Ex2.aliceToken Ex.users Ex.postUsers); by vm_compute.
Defined.

(** X28.  Through the wired pipeline with the JWT authenticator, a
    request to an endpoint that requires authentication is turned away
    as [unauthorized] when it carries no credential: no [Authorization]
    header, an empty one, or [Bearer] with nothing after it.  Nothing
    else has happened: the state is the one before. *)
Theorem ProxyRequest_without_credentials
    (hmac : string → string → string * JSON → string)
    (decode : string → option Token) (a : JWTAuth)
    (base64 : string → string) (rfc3339 : Z → string) (transport : Transport)
    (w : World) (request : Request.t)
    (service : Service.t) (rest : list Service.t) (endpoint : Endpoint.t) :
  Request.Method request ≠ "" → Request.Path request ≠ "" →
  ServiceRepositoryMock.GetByEndpoint (registry w)
    (Request.Path request) (Request.Method request) = Ok (service :: rest) →
  ProxyUseCase.matching_endpoint service request = Some endpoint →
  Endpoint.AuthRequired endpoint = true →
  getAuthToken (GatewayService.headers_of (heap w) request) = "" →
  ProxyUseCase.ProxyRequest
    (proxyUseCase base64 rfc3339 transport (jwtAuthService hmac decode a))
    w request
  = (Err (Errorf "unauthorized"), w).
Proof.
  intros Hm Hp Hget Hmatch Hauth Hnone.
  unfold ProxyUseCase.ProxyRequest. simpl.
  rewrite !bool_decide_eq_false_2 by done.
  rewrite Hget, Hmatch. unfold ProxyUseCase.check_auth. rewrite Hauth. simpl.
  unfold Authenticate. rewrite Hnone. done.
Qed.

(** X28 for a POST of the users path that carries [Bearer] and no
    token. *)
Lemma ProxyRequest_without_credentials_witness :
  ProxyUseCase.ProxyRequest
    (proxyUseCase id Ex2.stamp Ex.alwaysOk
       (jwtAuthService Ex.keyOnly Ex2.decodeAlice Ex.gatewayAuth))
    Ex2.bearerWorld Ex2.postRequest
  = (Err (Errorf "unauthorized"), Ex2.bearerWorld).
Proof.
  apply (ProxyRequest_without_credentials Ex.keyOnly Ex2.decodeAlice
           Ex.gatewayAuth id Ex2.stamp Ex.alwaysOk Ex2.bearerWorld
           Ex2.postRequest Ex.users [] Ex.postUsers); by vm_compute.
Defined.

(** ** The gateway's transformations: what they keep *)

(** X29.  [TransformRequest] and [TransformResponse] never fail.  The
    transformed request keeps the ID, method, path, query, body, client
    address, time and user ID of the request, while [Authenticated] and
    [Timeout], which the literal leaves out, are reset; of the header
    maps in memory only the one the transformed request refers to may
    have changed.  The transformed response keeps status, body, content
    type, time, latency and the cached mark, and its content length is
    reset to zero. *)
Theorem transformations_keep_fields
    (h : Heap) (request : Request.t) (response : Response.t) (service : Service.t) :
  ∃ transformed h' transformedResponse,
    GatewayService.TransformRequest h request service = (Ok transformed, h')
    ∧ (Request.ID transformed, Request.Method transformed,
       Request.Path transformed, Request.QueryParams transformed,
       Request.Body transformed, Request.ClientIP transformed,
       Request.Timestamp transformed, Request.UserID transformed)
      = (Request.ID request, Request.Method request, Request.Path request,
         Request.QueryParams request, Request.Body request,
         Request.ClientIP request, Request.Timestamp request,
         Request.UserID request)
    ∧ Request.Authenticated transformed = false
    ∧ Request.Timeout transformed = 0
    ∧ (∀ l, Request.Headers transformed ≠ Some l → h' !! l = h !! l)
    ∧ GatewayService.TransformResponse response service = Ok transformedResponse
    ∧ (Response.RequestID transformedResponse,
       Response.StatusCode transformedResponse, Response.Body transformedResponse,
       Response.ContentType transformedResponse,
       Response.Timestamp transformedResponse,
       Response.LatencyMs transformedResponse,
       Response.CachedResult transformedResponse)
      = (Response.RequestID response, Response.StatusCode response,
         Response.Body response, Response.ContentType response,
         Response.Timestamp response, Response.LatencyMs response,
         Response.CachedResult response)
    ∧ Response.ContentLength transformedResponse = 0.
Proof.
  unfold GatewayService.TransformRequest, GatewayService.TransformResponse.
  destruct (Request.Headers request) as [l0|]; do 3 eexists;
    (split; [reflexivity|]); simpl; repeat split; try done;
    intros l Hl; unfold GatewayService.store;
    rewrite !lookup_insert_ne by congruence; done.
Qed.

(** ** The SQL-backed registry: what it loads *)

Section ImplFacts.

Context {DB : Type} (g : Gorm DB).

Lemma loadEndpoints_methods (db : DB) (model : ServiceModel.t) (s : Service.t) :
  ServiceRepositoryImpl.loadEndpoints g db
    (ServiceRepositoryImpl.mapModelToEntity model) = Ok s →
  Service.Metadata s = ∅
  ∧ ∀ e, e ∈ Service.Endpoints s →
         Endpoint.Methods e = [] ∧ Endpoint.CacheTTL e = 0.
Proof.
  unfold ServiceRepositoryImpl.loadEndpoints.
  destruct (find_endpoints g db _) as [models|msg]; [|done].
  intros [= <-]. simpl. split; [done|]. intros e He.
  apply list_elem_of_In, in_map_iff in He as (row & <- & _). done.
Qed.

Lemma load_services_methods (db : DB) (models : list ServiceModel.t)
    (services : list Service.t) :
  ServiceRepositoryImpl.load_services g db models = Ok services →
  length services = length models
  ∧ ∀ s, s ∈ services →
         Service.Metadata s = ∅
         ∧ ∀ e, e ∈ Service.Endpoints s →
                Endpoint.Methods e = [] ∧ Endpoint.CacheTTL e = 0.
Proof.
  revert services. induction models as [|model rest IH]; intros services; simpl.
  - intros [= <-]. split; [done|]. intros s Hs. by apply elem_of_nil in Hs.
  - destruct (ServiceRepositoryImpl.loadEndpoints g db _) as [s0|err] eqn:Hload;
      [|done].
    destruct (ServiceRepositoryImpl.load_services g db rest) as [loaded|err];
      [|done].
    intros [= <-]. destruct (IH loaded eq_refl) as [Hlen Hall].
    split; [simpl; by rewrite Hlen|].
    intros s Hs. apply elem_of_cons in Hs as [->|Hs]; [|by apply Hall].
    by apply (loadEndpoints_methods db model).
Qed.

Lemma load_services_Err (db : DB) (models : list ServiceModel.t) (err : GoError) :
  ServiceRepositoryImpl.load_services g db models = Err err →
  ∃ msg, err = Wrapf "failed to load endpoints" (ErrExternal msg).
Proof.
  induction models as [|model rest IH]; simpl; [done|].
  unfold ServiceRepositoryImpl.loadEndpoints at 1.
  destruct (find_endpoints g db _) as [rows|msg]; [|intros [= <-]; eauto].
  destruct (ServiceRepositoryImpl.load_services g db rest) as [loaded|err'];
    [done|].
  intros [= <-]. by apply IH.
Qed.

End ImplFacts.

(** X30.  Whatever the database, the services the SQL-backed registry
    returns from [GetByEndpoint] have empty metadata and endpoints
    without methods and without cache time: [FindEndpoint] resolves no
    route on them and, as loaded, they serve none.  There is one service
    per row of the join; when the join is empty the result is an empty
    list, not [ErrNotFound].  Every failure is a wrapped database error. *)
Theorem Impl_GetByEndpoint_result
    {DB : Type} (g : Gorm DB) (db : DB) (path method : string) :
  match ServiceRepositoryImpl.GetByEndpoint g db path method with
  | Ok services =>
      (∃ rows, find_by_endpoint g db path ("%" ++ method ++ "%")%string = Found rows
               ∧ length services = length rows)
      ∧ ∀ s, s ∈ services →
          Service.Metadata s = ∅
          ∧ (∀ e, e ∈ Service.Endpoints s →
                  Endpoint.Methods e = [] ∧ Endpoint.CacheTTL e = 0)
          ∧ ∀ p m, Service.FindEndpoint s p m = None ∧ ¬ serves p m s
  | Err err => ∃ msg cause, err = Wrapf msg (ErrExternal cause)
  end.
Proof.
  unfold ServiceRepositoryImpl.GetByEndpoint.
  destruct (find_by_endpoint g db path _) as [rows|msg]; [|eauto].
  destruct (ServiceRepositoryImpl.load_services g db rows) as [services|err]
    eqn:Hload.
  - apply load_services_methods in Hload as [Hlen Hall].
    split; [eauto|]. intros s Hs. destruct (Hall s Hs) as [Hmeta Hends].
    do 2 (split; [done|]). intros p m. split.
    + unfold Service.FindEndpoint.
      destruct (List.find _ (Service.Endpoints s)) as [e|] eqn:Hfind; [|done].
      apply find_some in Hfind as [Hin Hb].
      apply list_elem_of_In in Hin. destruct (Hends e Hin) as [Hm _].
      unfold Service.has_method in Hb. rewrite Hm in Hb.
      by rewrite andb_false_r in Hb.
    + intros (e & Hin & _ & Hm). destruct (Hends e Hin) as [Hnil _].
      rewrite Hnil in Hm. destruct Hm as [Hm|Hm]; by apply elem_of_nil in Hm.
  - apply load_services_Err in Hload as [msg ->]. eauto.
Qed.
